(** * maxo: the lexer (package [lexer]) and its reference consumer (package [parser])

    A shallow embedding of [lexer/lexer.go] and of [parser.Parse], with the
    properties of the scanner stated and proved over it.

    Conventions of the embedding:
    - a Go [string] is a finite sequence of bytes: Rocq's [string] (a list of
      8-bit [ascii]);
    - Go [int] and [rune] values are modelled in [Z]; every integer the
      lexer computes lies between [-1] and the length of the input, far from
      the machine bounds;
    - the [Items] channel is modelled by the ordered list of items sent on
      it, together with a [closed] flag;
    - a run-time panic (slice bounds out of range) is the outcome [Panic];
    - a receive that can never complete (the channel is drained and nobody
      has closed it) is the outcome [Blocked];
    - the unbounded [for] loops take a fuel argument; running out of it is
      the outcome [OutOfFuel], and the theorems show that the fuel chosen by
      [Lex] is always enough. *)

From Stdlib Require Import ZArith List String Ascii Bool Lia.
Import ListNotations.
Open Scope string_scope.
Open Scope Z_scope.

(* ------------------------------------------------------------------ *)
(** ** Go strings *)

Module GoString.

(** [len(s)] *)
Definition len (s : string) : Z := Z.of_nat (String.length s).

(** The numeric value of a byte. *)
Definition byte (c : ascii) : Z := Z.of_N (N_of_ascii c).

(** The byte with a given numeric value ([byte(x)] conversion: the low
    eight bits). *)
Definition to_byte (x : Z) : ascii := ascii_of_N (Z.to_N (x mod 256)).

Fixpoint take (n : nat) (s : string) : string :=
  match n, s with
  | S n', String c s' => String c (take n' s')
  | _, _ => EmptyString
  end.

Fixpoint drop (n : nat) (s : string) : string :=
  match n, s with
  | S n', String _ s' => drop n' s'
  | _, _ => s
  end.

(** [s[i]] for an index the caller has already checked to be in range;
    the default is never reached from [DecodeRuneInString]. *)
Definition byte_at (s : string) (i : nat) : Z :=
  match String.get i s with
  | Some c => byte c
  | None => 0
  end.

(** Concatenation of a sequence of strings. *)
Definition join (l : list string) : string :=
  fold_right String.append EmptyString l.

End GoString.
Import GoString.

(* ------------------------------------------------------------------ *)
(** ** Outcomes of a computation that may panic, block or exhaust its fuel *)

Inductive res (A : Type) : Type :=
| Ok (a : A)
| Panic
| OutOfFuel
| Blocked.
Arguments Ok {A} a.
Arguments Panic {A}.
Arguments OutOfFuel {A}.
Arguments Blocked {A}.

(** [s[lo:hi]]: panics unless [0 <= lo <= hi <= len(s)]. *)
Definition slice (s : string) (lo hi : Z) : res string :=
  if (0 <=? lo) && (lo <=? hi) && (hi <=? len s)
  then Ok (take (Z.to_nat (hi - lo)) (drop (Z.to_nat lo) s))
  else Panic.

(** [s[lo:]], that is [s[lo:len(s)]]. *)
Definition slice_from (s : string) (lo : Z) : res string :=
  slice s lo (len s).

(* ------------------------------------------------------------------ *)
(** ** Package [unicode/utf8] of the Go library, as far as the lexer uses it *)

Module utf8.

Definition RuneError : Z := 0xFFFD.
Definition MaxRune : Z := 0x10FFFF.
Definition surrogateMin : Z := 0xD800.
Definition surrogateMax : Z := 0xDFFF.

Definition maskx : Z := 0x3F.
Definition mask2 : Z := 0x1F.
Definition mask3 : Z := 0x0F.
Definition mask4 : Z := 0x07.

Definition t2 : Z := 0xC0.
Definition t3 : Z := 0xE0.
Definition t4 : Z := 0xF0.
Definition tx : Z := 0x80.

Definition rune1Max : Z := 0x7F.
Definition rune2Max : Z := 0x7FF.
Definition rune3Max : Z := 0xFFFF.

Definition locb : Z := 0x80.
Definition hicb : Z := 0xBF.

(** Classes of a first byte: the low three bits are the size of the
    encoding, the high four an index into [acceptRanges]. *)
Definition xx : Z := 0xF1.  (* invalid: size 1 *)
Definition as_ : Z := 0xF0. (* ASCII: size 1 *)
Definition s1 : Z := 0x02.
Definition s2 : Z := 0x13.
Definition s3 : Z := 0x03.
Definition s4 : Z := 0x23.
Definition s5 : Z := 0x34.
Definition s6 : Z := 0x04.
Definition s7 : Z := 0x44.

(** The table [first], by ranges of the first byte. *)
Definition first (b : Z) : Z :=
  if b <? 0x80 then as_
  else if b <? 0xC2 then xx
  else if b <? 0xE0 then s1
  else if b =? 0xE0 then s2
  else if b <? 0xED then s3
  else if b =? 0xED then s4
  else if b <? 0xF0 then s3
  else if b =? 0xF0 then s5
  else if b <? 0xF4 then s6
  else if b =? 0xF4 then s7
  else xx.

(** The table [acceptRanges]: bounds [(lo, hi)] of the second byte. *)
Definition acceptRanges (i : Z) : Z * Z :=
  if i =? 0 then (locb, hicb)
  else if i =? 1 then (0xA0, hicb)
  else if i =? 2 then (locb, 0x9F)
  else if i =? 3 then (0x90, hicb)
  else if i =? 4 then (locb, 0x8F)
  else (0, 0).

(** [DecodeRuneInString(s)]: the first code point of [s] and the number
    of bytes of its encoding; [(RuneError, 0)] on the empty string and
    [(RuneError, 1)] on an invalid encoding. *)
Definition DecodeRuneInString (s : string) : Z * Z :=
  let n := len s in
  if n <? 1 then (RuneError, 0)
  else
    let s0 := byte_at s 0 in
    let x := first s0 in
    if as_ <=? x then
      (* rune(x) << 31 >> 31 on a 32-bit signed integer: all ones when
         the low bit of [x] is set, zero otherwise *)
      let mask := if Z.odd x then -1 else 0 in
      (Z.lor (Z.land s0 (Z.lnot mask)) (Z.land RuneError mask), 1)
    else
      let sz := Z.land x 7 in
      let accept := acceptRanges (Z.shiftr x 4) in
      if n <? sz then (RuneError, 1)
      else
        let s1 := byte_at s 1 in
        if (s1 <? fst accept) || (snd accept <? s1) then (RuneError, 1)
        else if sz <=? 2 then
          (Z.lor (Z.shiftl (Z.land s0 mask2) 6) (Z.land s1 maskx), 2)
        else
          let s2 := byte_at s 2 in
          if (s2 <? locb) || (hicb <? s2) then (RuneError, 1)
          else if sz <=? 3 then
            (Z.lor (Z.lor (Z.shiftl (Z.land s0 mask3) 12)
                          (Z.shiftl (Z.land s1 maskx) 6))
                   (Z.land s2 maskx), 3)
          else
            let s3 := byte_at s 3 in
            if (s3 <? locb) || (hicb <? s3) then (RuneError, 1)
            else
              (Z.lor (Z.lor (Z.lor (Z.shiftl (Z.land s0 mask4) 18)
                                   (Z.shiftl (Z.land s1 maskx) 12))
                            (Z.shiftl (Z.land s2 maskx) 6))
                     (Z.land s3 maskx), 4).

(** The bytes [AppendRune] adds for [r]: the UTF-8 encoding of [r], or
    of [RuneError] when [r] is not a valid code point. *)
Definition encode3 (r : Z) : string :=
  String (to_byte (Z.lor t3 (Z.shiftr r 12)))
    (String (to_byte (Z.lor tx (Z.land (Z.shiftr r 6) maskx)))
       (String (to_byte (Z.lor tx (Z.land r maskx))) EmptyString)).

Definition EncodeRune (r : Z) : string :=
  if (0 <=? r) && (r <=? rune1Max) then String (to_byte r) EmptyString
  else if (0 <=? r) && (r <=? rune2Max) then
    String (to_byte (Z.lor t2 (Z.shiftr r 6)))
      (String (to_byte (Z.lor tx (Z.land r maskx))) EmptyString)
  else if (r <? 0) || (MaxRune <? r)
          || ((surrogateMin <=? r) && (r <=? surrogateMax)) then
    encode3 RuneError
  else if r <=? rune3Max then encode3 r
  else
    String (to_byte (Z.lor t4 (Z.shiftr r 18)))
      (String (to_byte (Z.lor tx (Z.land (Z.shiftr r 12) maskx)))
         (String (to_byte (Z.lor tx (Z.land (Z.shiftr r 6) maskx)))
            (String (to_byte (Z.lor tx (Z.land r maskx))) EmptyString))).

End utf8.

(* ------------------------------------------------------------------ *)
(** ** Package [unicode] of the Go library: [IsSpace] *)

Module unicode.

Definition MaxLatin1 : Z := 0xFF.

(** The ranges of the table [White_Space] above Latin-1. *)
Definition White_Space_excluding_Latin (r : Z) : bool :=
  (r =? 0x1680)
  || ((0x2000 <=? r) && (r <=? 0x200A))
  || ((0x2028 <=? r) && (r <=? 0x2029))
  || (r =? 0x202F)
  || (r =? 0x205F)
  || (r =? 0x3000).

(** [IsSpace(r)]: for Latin-1 the characters tab, newline, vertical tab,
    form feed, carriage return, space, U+0085 and U+00A0; above Latin-1
    the property White_Space. The test [uint32(r) <= MaxLatin1] excludes
    negative runes. *)
Definition IsSpace (r : Z) : bool :=
  if (0 <=? r) && (r <=? MaxLatin1) then
    (r =? 0x09) || (r =? 0x0A) || (r =? 0x0B) || (r =? 0x0C)
    || (r =? 0x0D) || (r =? 0x20) || (r =? 0x85) || (r =? 0xA0)
  else White_Space_excluding_Latin r.

End unicode.

(* ------------------------------------------------------------------ *)
(** ** Package [lexer] *)

Module lexer.

Inductive ItemKind : Type :=
| WhiteSpace
| LineBreak
| NewLine
| Text
| Digit
| StringQuote
| SingleLineComment
| MultiLineCommentStart
| MultiLineCommentEnd
| Operator
| EOF
| ItemError.

Definition ItemKind_eqb (a b : ItemKind) : bool :=
  match a, b with
  | WhiteSpace, WhiteSpace | LineBreak, LineBreak | NewLine, NewLine
  | Text, Text | Digit, Digit | StringQuote, StringQuote
  | SingleLineComment, SingleLineComment
  | MultiLineCommentStart, MultiLineCommentStart
  | MultiLineCommentEnd, MultiLineCommentEnd
  | Operator, Operator | EOF, EOF | ItemError, ItemError => true
  | _, _ => false
  end.

(** [type Item struct { Position int; Kind ItemKind; Value string }] *)
Module Item.
Record t : Type := mk {
  Position : Z;
  Kind : ItemKind;
  Value : string
}.
End Item.

(** [const eof = rune(0)] *)
Definition eof : Z := 0.

(** The state functions: a [stateFn] value is one of the two handlers;
    the [nil] state function is [None] of [option stateFn]. *)
Inductive stateFn : Type :=
| fn_lexText
| fn_lexWhitespace.

(** [type Lexer struct]. [Items] holds what has been sent on the channel,
    oldest first; [closed] tells whether the channel has been closed. *)
Record Lexer : Type := mkLexer {
  input : string;
  start : Z;
  Position : Z;
  width : Z;
  state : stateFn;
  Items : list Item.t;
  closed : bool
}.

Definition set_start (l : Lexer) (v : Z) : Lexer :=
  mkLexer (input l) v (Position l) (width l) (state l) (Items l) (closed l).
Definition set_Position (l : Lexer) (v : Z) : Lexer :=
  mkLexer (input l) (start l) v (width l) (state l) (Items l) (closed l).
Definition set_width (l : Lexer) (v : Z) : Lexer :=
  mkLexer (input l) (start l) (Position l) v (state l) (Items l) (closed l).
Definition set_Items (l : Lexer) (v : list Item.t) : Lexer :=
  mkLexer (input l) (start l) (Position l) (width l) (state l) v (closed l).
Definition set_closed (l : Lexer) (v : bool) : Lexer :=
  mkLexer (input l) (start l) (Position l) (width l) (state l) (Items l) v.

(** *** The monad of a scan

    A scan threads the lexer through its methods. Next to the lexer the
    state carries [visited], the list of every value the lexer has taken
    so far (oldest first): nothing reads it, it only lets the theorems
    speak about every point of a scan. *)
Record Run : Type := mkRun {
  lx : Lexer;
  visited : list Lexer
}.

Definition M (A : Type) : Type := Run -> res (A * Run).

Definition ret {A} (a : A) : M A := fun s => Ok (a, s).

Definition bind {A B} (m : M A) (k : A -> M B) : M B :=
  fun s =>
    match m s with
    | Ok (a, s') => k a s'
    | Panic => Panic
    | OutOfFuel => OutOfFuel
    | Blocked => Blocked
    end.

Notation "x <- m ;; k" := (bind m (fun x => k))
  (at level 61, m at next level, right associativity).
Notation "m ;; k" := (bind m (fun _ => k))
  (at level 61, right associativity).

Definition get : M Lexer := fun s => Ok (lx s, s).

(** Every assignment to the lexer is recorded in [visited]. *)
Definition put (l : Lexer) : M unit :=
  fun s => Ok (tt, mkRun l (visited s ++ [l])).

Definition lift {A} (r : res A) : M A :=
  fun s =>
    match r with
    | Ok a => Ok (a, s)
    | Panic => Panic
    | OutOfFuel => OutOfFuel
    | Blocked => Blocked
    end.

Definition panic {A} : M A := fun _ => Panic.
Definition out_of_fuel {A} : M A := fun _ => OutOfFuel.

(** [l.Items <- i]: sending on a closed channel panics. *)
Definition send (i : Item.t) : M unit :=
  l <- get ;;
  if closed l then panic else put (set_Items l (Items l ++ [i])).

(** [close(l.Items)]: closing a closed channel panics. *)
Definition close_Items : M unit :=
  l <- get ;;
  if closed l then panic else put (set_closed l true).

(** *** The cursor operations *)

(** [func (l *Lexer) ignore()] *)
Definition ignore : M unit :=
  l <- get ;;
  put (set_start l (Position l)).

(** [func (l *Lexer) emit(k ItemKind)] *)
Definition emit (k : ItemKind) : M unit :=
  l <- get ;;
  accumulation <- lift (slice (input l) (start l) (Position l)) ;;
  let i := Item.mk (start l) k accumulation in
  send i ;;
  ignore.

(** [func (l *Lexer) next() (r rune)] *)
Definition next : M Z :=
  l <- get ;;
  if Position l >=? len (input l) then
    put (set_width l 0) ;;
    ret eof
  else
    rest <- lift (slice_from (input l) (Position l)) ;;
    let (r, w) := utf8.DecodeRuneInString rest in
    put (set_width l w) ;;
    l <- get ;;
    put (set_Position l (Position l + width l)) ;;
    ret r.

(** [func (l *Lexer) backup()] *)
Definition backup : M unit :=
  l <- get ;;
  put (set_Position l (Position l - 1)).

(** [func (l *Lexer) errorf(format string, args ...interface{}) stateFn],
    with [msg] the text that [fmt.Sprintf(format, args...)] yields. *)
Definition errorf (msg : string) : M (option stateFn) :=
  send (Item.mk 0 ItemError msg) ;;
  ret None.

(** *** The state handlers *)

(** [func (l *Lexer) lexEOF(k ItemKind) stateFn] *)
Definition lexEOF (k : ItemKind) : M (option stateFn) :=
  l <- get ;;
  (if start l >? Position l then ignore else ret tt) ;;
  emit k ;;
  emit EOF ;;
  ret None.

(** [func lexText(l *Lexer) stateFn]; [fuel] bounds the iterations of
    its [for] loop. *)
Fixpoint lexText (fuel : nat) : M (option stateFn) :=
  match fuel with
  | O => out_of_fuel
  | S fuel' =>
      r <- next ;;
      if r =? eof then lexEOF Text
      else if unicode.IsSpace r then
        backup ;;
        l <- get ;;
        (* emit any text we've accumulated. *)
        (if Position l >? start l then emit Text else ret tt) ;;
        ret (Some fn_lexWhitespace)
      else lexText fuel'
  end.

(** [func lexWhitespace(l *Lexer) stateFn] *)
Fixpoint lexWhitespace (fuel : nat) : M (option stateFn) :=
  match fuel with
  | O => out_of_fuel
  | S fuel' =>
      r <- next ;;
      if r =? eof then lexEOF WhiteSpace
      else if negb (unicode.IsSpace r) then
        backup ;;
        l <- get ;;
        (if Position l >? start l then emit WhiteSpace else ret tt) ;;
        ret (Some fn_lexText)
      else lexWhitespace fuel'
  end.

(** Calling a state function. *)
Definition call (fuel : nat) (fn : stateFn) : M (option stateFn) :=
  match fn with
  | fn_lexText => lexText fuel
  | fn_lexWhitespace => lexWhitespace fuel
  end.

(** The loop of [scan]: [for fn := ...; fn != nil; { fn = fn(l) }]. *)
Fixpoint scan_loop (fuel : nat) (fn : option stateFn) : M unit :=
  match fn with
  | None => ret tt
  | Some f =>
      match fuel with
      | O => out_of_fuel
      | S fuel' =>
          fn' <- call fuel f ;;
          scan_loop fuel' fn'
      end
  end.

(** [func (l *Lexer) scan()] *)
Definition scan (fuel : nat) : M unit :=
  scan_loop fuel (Some fn_lexText) ;;
  close_Items.

(** The lexer that [Lex] allocates. *)
Definition new_Lexer (input : string) : Lexer :=
  mkLexer input 0 0 0 fn_lexText [] false.

(** The scan that [Lex] starts ([go l.scan()]), run to its end. *)
Definition Lex_run (fuel : nat) (input : string) : res Run :=
  let l := new_Lexer input in
  match scan fuel (mkRun l [l]) with
  | Ok (_, s) => Ok s
  | Panic => Panic
  | OutOfFuel => OutOfFuel
  | Blocked => Blocked
  end.

(** Fuel that is enough for every loop of a scan of [input]. *)
Definition enough (input : string) : nat := 2 * String.length input + 2.

(** The lexer a scan with [fuel] leaves behind. *)
Definition Lex_with (fuel : nat) (input : string) : res Lexer :=
  match Lex_run fuel input with
  | Ok s => Ok (lx s)
  | Panic => Panic
  | OutOfFuel => OutOfFuel
  | Blocked => Blocked
  end.

(** [func Lex(input string) *Lexer], observed once the scan has
    finished: [Items] of the result is everything the consumer can
    receive, in order. *)
Definition Lex (input : string) : res Lexer :=
  Lex_with (enough input) input.

(** *** [Reverse] *)

(** [[]rune(s)]: the code points of [s], [RuneError] for each byte of an
    invalid encoding. *)
Fixpoint runes_loop (fuel : nat) (s : string) : list Z :=
  match fuel with
  | O => []
  | S fuel' =>
      match s with
      | EmptyString => []
      | _ =>
          let (r, w) := utf8.DecodeRuneInString s in
          r :: runes_loop fuel' (drop (Z.to_nat w) s)
      end
  end.

Definition runes (s : string) : list Z := runes_loop (String.length s) s.

(** [string(r)] for a slice of runes. *)
Definition string_of_runes (r : list Z) : string :=
  join (map utf8.EncodeRune r).

Definition rlen (r : list Z) : Z := Z.of_nat (List.length r).

Fixpoint store (r : list Z) (i : nat) (v : Z) : list Z :=
  match r, i with
  | [], _ => []
  | _ :: t, O => v :: t
  | x :: t, S i' => x :: store t i' v
  end.

(** [r[i], r[j] = r[j], r[i]]; both indices are in range where
    [Reverse] uses it. *)
Definition swap (r : list Z) (i j : Z) : list Z :=
  let ri := nth (Z.to_nat i) r 0 in
  let rj := nth (Z.to_nat j) r 0 in
  store (store r (Z.to_nat i) rj) (Z.to_nat j) ri.

(** [for i, j := 0, len(r)-1; i < len(r)/2; i, j = i+1, j-1 { swap }] *)
Fixpoint Reverse_loop (fuel : nat) (i j : Z) (r : list Z) : list Z :=
  match fuel with
  | O => r
  | S fuel' =>
      if i <? rlen r / 2
      then Reverse_loop fuel' (i + 1) (j - 1) (swap r i j)
      else r
  end.

(** [func Reverse(s string) string] *)
Definition Reverse (s : string) : string :=
  let r := runes s in
  string_of_runes (Reverse_loop (List.length r) 0 (rlen r - 1) r).

(** *** [SimpleParser] *)

(** One iteration of the loop [for _, char := range input] of
    [SimpleParser], on the pair of its variables [result] and [word];
    [c] is [string(char)]. *)
Definition SimpleParser_step (st : string * string) (char : Z)
  : string * string :=
  let (result, word) := st in
  let c := utf8.EncodeRune char in
  if (c =? " ")%string then
    (* Clean-up the accumulated word *)
    let result :=
      if len word >? 0 then (result ++ Reverse word)%string else result in
    ((result ++ " ")%string, word)
  else (result, word).

(** [func SimpleParser(input string) string]; [range] over a string
    yields the code points that [[]rune(input)] holds. *)
Definition SimpleParser (input : string) : string :=
  let (result, word) :=
    fold_left SimpleParser_step (runes input) (EmptyString, EmptyString) in
  if len word >? 0 then (result ++ Reverse word)%string else result.

End lexer.

(* ------------------------------------------------------------------ *)
(** ** Package [parser] *)

Module parser.
Import lexer.

(** [type parser struct] *)
Record parser : Type := mkParser {
  result : string;
  lex : Lexer;
  errItem : option Item.t
}.

(** The error value of [fmt.Errorf(format, arg)], kept unformatted. *)
Inductive error : Type :=
| Errorf (format : string) (arg : string).

(** The loop of [parse], [for item := range p.lex.Items], over the items
    still to be received; [sb] is the [strings.Builder]. When no item is
    left, [range] ends if the channel is closed and waits for ever if it
    is not. *)
Fixpoint parse_loop (items : list Item.t) (sb : string) (p : parser)
  : res parser :=
  match items with
  | [] => if closed (lex p) then Ok p else Blocked
  | item :: rest =>
      match Item.Kind item with
      | EOF => Ok (mkParser sb (lex p) (errItem p))
      | ItemError => Ok (mkParser (result p) (lex p) (Some item))
      | Text => parse_loop rest (sb ++ Reverse (Item.Value item)) p
      | WhiteSpace => parse_loop rest (sb ++ Item.Value item) p
      | _ => parse_loop rest sb p
      end
  end.

(** [func (p *parser) parse()] *)
Definition parse (p : parser) : res parser :=
  parse_loop (Items (lex p)) EmptyString p.

(** The body of [Parse] from the lexer [l] that [lexer.Lex(text)] gave:
    [p := parser{lex: l}; p.parse()], then the test of [p.errItem]. *)
Definition Parse_from (l : Lexer) : res (string * option error) :=
  match parse (mkParser EmptyString l None) with
  | Ok p =>
      match errItem p with
      | Some e =>
          Ok (EmptyString,
              Some (Errorf "error processing the following %q"
                      (Item.Value e)))
      | None => Ok (result p, None)
      end
  | Panic => Panic
  | OutOfFuel => OutOfFuel
  | Blocked => Blocked
  end.

(** [func Parse(text string) (string, error)] *)
Definition Parse (text : string) : res (string * option error) :=
  match Lex text with
  | Ok l => Parse_from l
  | Panic => Panic
  | OutOfFuel => OutOfFuel
  | Blocked => Blocked
  end.

End parser.

Import lexer.

(* ------------------------------------------------------------------ *)
(** ** Definitions used by the proofs *)

(** Enumeration of an interval of [Z], to settle facts about bytes by
    evaluation. *)
Fixpoint Zrange (lo : Z) (n : nat) : list Z :=
  match n with
  | O => []
  | S n' => lo :: Zrange (lo + 1) n'
  end.

(** What the leading bits of a valid multi-byte encoding exclude: the
    payload bits of the first two bytes are never all zero. *)
Definition payload_check (b0 b1 : Z) : bool :=
  let x := utf8.first b0 in
  if utf8.as_ <=? x then true
  else
    let sz := Z.land x 7 in
    let accept := utf8.acceptRanges (Z.shiftr x 4) in
    if (b1 <? fst accept) || (snd accept <? b1) then true
    else
      let m :=
        if sz <=? 2 then utf8.mask2
        else if sz <=? 3 then utf8.mask3
        else utf8.mask4 in
      negb ((Z.land b0 m =? 0) && (Z.land b1 utf8.maskx =? 0)).

(* ------------------------------------------------------------------ *)
(** ** Vocabulary of the properties *)

(** The cursor invariant of the data model:
    [start <= position <= len(input)]. *)
Definition cursor_inv (l : Lexer) : Prop :=
  start l <= Position l <= len (input l).

(** The same with the lower bound that slicing needs. *)
Definition cursor_ok (l : Lexer) : Prop :=
  0 <= start l /\ cursor_inv l.

(** Terminal items end a scan: [EOF] and [ItemError]. *)
Definition terminal (i : Item.t) : bool :=
  match Item.Kind i with
  | EOF | ItemError => true
  | _ => false
  end.

(** The segments of the input are the [Text] and [WhiteSpace] items. *)
Definition segment_kind (k : ItemKind) : bool :=
  match k with
  | Text | WhiteSpace => true
  | _ => false
  end.

Definition segment (i : Item.t) : Prop :=
  segment_kind (Item.Kind i) = true.

(** The values of the non-terminal items, in emission order. *)
Definition segments (its : list Item.t) : list string :=
  map Item.Value (filter (fun i => negb (terminal i)) its).

(** Whether a string holds the byte zero. *)
Fixpoint has_nul (s : string) : bool :=
  match s with
  | EmptyString => false
  | String c s' => (byte c =? 0) || has_nul s'
  end.

(** What [next] would decode at the cursor. *)
Definition peek (l : Lexer) : Z * Z :=
  utf8.DecodeRuneInString (drop (Z.to_nat (Position l)) (input l)).

(** A handler stalls when the first code point it reads already belongs
    to the other handler: it hands over without having advanced past a
    whole character. *)
Definition stalls (f : stateFn) (l : Lexer) : bool :=
  (Position l <? len (input l))
  && negb (fst (peek l) =? eof)
  && match f with
     | fn_lexText => unicode.IsSpace (fst (peek l))
     | fn_lexWhitespace => negb (unicode.IsSpace (fst (peek l)))
     end.

(** The termination measure of the loop of [scan]. *)
Definition measure (f : stateFn) (l : Lexer) : nat :=
  2 * Z.to_nat (len (input l) - Position l) + (if stalls f l then 1 else 0).

(** The two handlers are one loop, up to the kind they emit, the test
    that ends a run and the handler they pass control to. *)
Fixpoint lexRun (k : ItemKind) (boundary : Z -> bool) (nxt : stateFn)
  (fuel : nat) : M (option stateFn) :=
  match fuel with
  | O => out_of_fuel
  | S fuel' =>
      bind next (fun r =>
        if r =? eof then lexEOF k
        else if boundary r then
          bind backup (fun _ =>
          bind get (fun l =>
          bind (if Position l >? start l then emit k else ret tt) (fun _ =>
          ret (Some nxt))))
        else lexRun k boundary nxt fuel')
  end.

(** The state of a scan between two handlers, for the input [inp]. *)
Record good (inp : string) (s : Run) : Prop := mkGood {
  good_input : input (lx s) = inp;
  good_cursor : cursor_ok (lx s);
  good_visited : Forall cursor_ok (visited s);
  good_open : closed (lx s) = false;
  good_cover :
    join (map Item.Value (Items (lx s)))
    = take (Z.to_nat (start (lx s))) inp;
  good_kinds : Forall segment (Items (lx s));
  good_values :
    inp <> EmptyString ->
    Forall (fun i => Item.Value i <> EmptyString) (Items (lx s))
}.

(** Unless the input is empty, a handler starts with a pending segment or
    with input left to read. *)
Definition room (inp : string) (l : Lexer) : Prop :=
  inp <> EmptyString -> start l < Position l \/ Position l < len inp.

(** The state of a scan when the last handler has returned [nil]. *)
Record final (inp : string) (s : Run) : Prop := mkFinal {
  final_input : input (lx s) = inp;
  final_cursor : cursor_ok (lx s);
  final_visited : Forall cursor_ok (visited s);
  final_open : closed (lx s) = false;
  final_items :
    exists pre,
      Items (lx s) = (pre ++ [Item.mk (Position (lx s)) EOF EmptyString])%list
      /\ Forall segment pre
      /\ join (map Item.Value pre) = take (Z.to_nat (Position (lx s))) inp
      /\ (inp <> EmptyString ->
          Forall (fun i => Item.Value i <> EmptyString) pre);
  final_end : has_nul inp = false -> Position (lx s) = len inp
}.

(** One handler, run from a good state with fuel for the rest of the
    input: it returns, and either the scan is over or the next handler
    starts from a good state of smaller measure. *)
Definition handler_post (inp : string) (f : stateFn) (s : Run)
  (out : option stateFn) (s' : Run) : Prop :=
  match out with
  | None => final inp s'
  | Some f' =>
      good inp s'
      /\ room inp (lx s')
      /\ (measure f' (lx s') < measure f (lx s))%nat
  end.

(** The state in which a scan of [inp] leaves the lexer. *)
Record finished (inp : string) (s : Run) : Prop := mkFinished {
  fin_input : input (lx s) = inp;
  fin_closed : closed (lx s) = true;
  fin_visited : Forall cursor_ok (visited s);
  fin_items :
    exists pre,
      Items (lx s) = (pre ++ [Item.mk (Position (lx s)) EOF EmptyString])%list
      /\ Forall segment pre
      /\ join (map Item.Value pre) = take (Z.to_nat (Position (lx s))) inp
      /\ (inp <> EmptyString ->
          Forall (fun i => Item.Value i <> EmptyString) pre);
  fin_end : has_nul inp = false -> Position (lx s) = len inp
}.

(** What the reference consumer writes for one item. *)
Definition transform (i : Item.t) : string :=
  match Item.Kind i with
  | Text => Reverse (Item.Value i)
  | WhiteSpace => Item.Value i
  | _ => EmptyString
  end.

(** The output reassembled from a sequence of items. *)
Definition reassemble (its : list Item.t) : string :=
  join (map transform its).

(** The items before the first terminal one. *)
Fixpoint before_terminal (its : list Item.t) : list Item.t :=
  match its with
  | [] => []
  | i :: rest => if terminal i then [] else i :: before_terminal rest
  end.

(** The two bytes of the UTF-8 encoding of U+00A0, the no-break space. *)
Definition nbsp : string :=
  String (to_byte 0xC2) (String (to_byte 0xA0) EmptyString).

(** The string of the single byte zero. *)
Definition nul : string := String (to_byte 0) EmptyString.

(** The kind of segment a handler emits. *)
Definition kind_of (f : stateFn) : ItemKind :=
  match f with
  | fn_lexText => Text
  | fn_lexWhitespace => WhiteSpace
  end.

(** Two consecutive items that break the alternation: both non-terminal,
    both non-empty, of the same kind. *)
Definition clash (i j : Item.t) : bool :=
  negb (terminal i) && negb (terminal j)
  && negb (Item.Value i =? "")%string && negb (Item.Value j =? "")%string
  && ItemKind_eqb (Item.Kind i) (Item.Kind j).

(** No two consecutive items clash. *)
Fixpoint alternates (its : list Item.t) : bool :=
  match its with
  | [] => true
  | i :: rest =>
      match rest with
      | [] => true
      | j :: _ => negb (clash i j)
      end && alternates rest
  end.

(** The item sent last. *)
Fixpoint last_item (its : list Item.t) : option Item.t :=
  match its with
  | [] => None
  | i :: rest =>
      match rest with
      | [] => Some i
      | _ :: _ => last_item rest
      end
  end.

(** Every byte is below [0x80]. *)
Fixpoint is_ascii (s : string) : bool :=
  match s with
  | EmptyString => true
  | String c s' => (byte c <? 0x80) && is_ascii s'
  end.

(** Alternation while the handler [f] runs: the items so far alternate,
    the last of them is not of the kind [f] emits, and [f] does not stall
    on an empty pending segment unless nothing has been emitted yet. *)
Definition alt_inv (f : stateFn) (l : Lexer) : Prop :=
  alternates (Items l) = true
  /\ forall i, last_item (Items l) = Some i ->
       Item.Kind i <> kind_of f
       /\ (start l = Position l -> stalls f l = false).

(** The three bytes ['a'], zero, ['b']. *)
Definition a_nul_b : string := ("a" ++ nul ++ "b")%string.

(** The word [hello] with U+00E9 for its [e]: six bytes, five code
    points; and the same reversed. *)
Definition e_acute : string :=
  String (to_byte 0xC3) (String (to_byte 0xA9) EmptyString).
Definition hello_acute : string := ("h" ++ e_acute ++ "llo")%string.
Definition olleh_acute : string := ("oll" ++ e_acute ++ "h")%string.


(* ------------------------------------------------------------------ *)
(** ** Definitions for the further properties *)

(** [utf8.DecodeRuneInString] in arithmetic: the outcome as a function of
    the length of the string and of its first four bytes. *)
Definition decode_spec (n b0 b1 b2 b3 : Z) : Z * Z :=
  let cont b := (0x80 <=? b) && (b <=? 0xBF) in
  if n <? 1 then (utf8.RuneError, 0)
  else if b0 <? 0x80 then (b0, 1)
  else if b0 <? 0xC2 then (utf8.RuneError, 1)
  else if b0 <? 0xE0 then
    if (2 <=? n) && cont b1
    then (b0 mod 32 * 64 + b1 mod 64, 2)
    else (utf8.RuneError, 1)
  else if b0 <? 0xF0 then
    let lo := if b0 =? 0xE0 then 0xA0 else 0x80 in
    let hi := if b0 =? 0xED then 0x9F else 0xBF in
    if (3 <=? n) && (lo <=? b1) && (b1 <=? hi) && cont b2
    then (b0 mod 16 * 4096 + b1 mod 64 * 64 + b2 mod 64, 3)
    else (utf8.RuneError, 1)
  else if b0 <? 0xF5 then
    let lo := if b0 =? 0xF0 then 0x90 else 0x80 in
    let hi := if b0 =? 0xF4 then 0x8F else 0xBF in
    if (4 <=? n) && (lo <=? b1) && (b1 <=? hi) && cont b2 && cont b3
    then (b0 mod 8 * 262144 + b1 mod 64 * 4096 + b2 mod 64 * 64
          + b3 mod 64, 4)
    else (utf8.RuneError, 1)
  else (utf8.RuneError, 1).

(** The bytes of [inp] from offset [a] up to offset [b]. *)
Definition substr (inp : string) (a b : Z) : string :=
  take (Z.to_nat (b - a)) (drop (Z.to_nat a) inp).

(** The test that ends a run of the handler [f]. *)
Definition boundary_of (f : stateFn) (r : Z) : bool :=
  match f with
  | fn_lexText => unicode.IsSpace r
  | fn_lexWhitespace => negb (unicode.IsSpace r)
  end.

(** The handler that [f] passes control to. *)
Definition other (f : stateFn) : stateFn :=
  match f with
  | fn_lexText => fn_lexWhitespace
  | fn_lexWhitespace => fn_lexText
  end.

(** The items [its] tile the bytes of [inp] from offset [from] to offset
    [to]: each item sits at the offset where the one before it ends, and
    its value is the input between the two. *)
Fixpoint tiled (inp : string) (from : Z) (its : list Item.t) (to : Z)
  : Prop :=
  match its with
  | [] => from = to
  | i :: rest =>
      Item.Position i = from
      /\ Item.Value i = substr inp from (from + len (Item.Value i))
      /\ from + len (Item.Value i) <= len inp
      /\ tiled inp (from + len (Item.Value i)) rest to
  end.

(** A string with its bytes in reverse order. *)
Definition srev (s : string) : string :=
  string_of_list_ascii (rev (list_ascii_of_string s)).

(** How many bytes of a string have the value [a]. *)
Fixpoint count_byte (a : Z) (s : string) : nat :=
  match s with
  | EmptyString => 0
  | String c s' => (if byte c =? a then 1 else 0) + count_byte a s'
  end.

(** How many code points of a slice have the value [a]. *)
Fixpoint count_rune (a : Z) (rs : list Z) : nat :=
  match rs with
  | [] => 0
  | r :: rs' => (if r =? a then 1 else 0) + count_rune a rs'
  end.

(** The string of [n] spaces. *)
Fixpoint spaces (n : nat) : string :=
  match n with
  | O => EmptyString
  | S n' => String " " (spaces n')
  end.

(** The offset just past the first zero byte of a string; its length if
    it has none. *)
Fixpoint scan_end (s : string) : nat :=
  match s with
  | EmptyString => 0
  | String c s' => if byte c =? 0 then 1 else S (scan_end s')
  end.

(** Whether every byte of a string passes the test [p]. *)
Fixpoint all_bytes (p : Z -> bool) (s : string) : bool :=
  match s with
  | EmptyString => true
  | String c s' => p (byte c) && all_bytes p s'
  end.

(** The reference transform on bytes: every maximal run of non-space
    bytes is reversed in place, every whitespace byte stays where it is.
    [acc] holds, reversed, the bytes of the run being read. *)
Fixpoint rev_words_from (acc : string) (s : string) : string :=
  match s with
  | EmptyString => acc
  | String c s' =>
      if unicode.IsSpace (byte c)
      then (acc ++ String c (rev_words_from EmptyString s'))%string
      else rev_words_from (String c acc) s'
  end.

Definition reverse_words (s : string) : string :=
  rev_words_from EmptyString s.

(** What remains to be written while the handler [f] runs: the pending
    segment, transformed, and the transform of the input not yet read. *)
Definition words_tail (inp : string) (f : stateFn) (l : Lexer) : string :=
  let pending := substr inp (start l) (Position l) in
  let rest := drop (Z.to_nat (Position l)) inp in
  match f with
  | fn_lexText => rev_words_from (srev pending) rest
  | fn_lexWhitespace => (pending ++ rev_words_from EmptyString rest)%string
  end.

(** The bytes a [Text] segment is made of. *)
Definition nonspace (b : Z) : bool := negb (unicode.IsSpace b).

(** The bytes the handler [f] gathers. *)
Definition class_of (f : stateFn) : Z -> bool :=
  match f with
  | fn_lexText => nonspace
  | fn_lexWhitespace => unicode.IsSpace
  end.

(** An item holds the bytes of its kind only: no whitespace in a [Text]
    item, nothing but whitespace in a [WhiteSpace] item. *)
Definition classified (i : Item.t) : bool :=
  match Item.Kind i with
  | Text => all_bytes nonspace (Item.Value i)
  | WhiteSpace => all_bytes unicode.IsSpace (Item.Value i)
  | _ => true
  end.

(** The code points that have an encoding of their own: the Unicode
    scalar values. *)
Definition valid_rune (r : Z) : bool :=
  ((0 <=? r) && (r <? utf8.surrogateMin))
  || ((utf8.surrogateMax <? r) && (r <=? utf8.MaxRune)).

(** Whether a string is well-formed UTF-8: decoding it never has to put
    U+FFFD in the place of a byte. *)
Fixpoint well_formed_loop (fuel : nat) (s : string) : bool :=
  match fuel with
  | O => true
  | S fuel' =>
      match s with
      | EmptyString => true
      | _ =>
          let (r, w) := utf8.DecodeRuneInString s in
          negb ((r =? utf8.RuneError) && (w =? 1))
          && well_formed_loop fuel' (drop (Z.to_nat w) s)
      end
  end.

Definition well_formed (s : string) : bool :=
  well_formed_loop (String.length s) s.

(** Two consecutive items that are segments of one kind, whatever their
    values. *)
Definition same_segment (i j : Item.t) : bool :=
  segment_kind (Item.Kind i) && ItemKind_eqb (Item.Kind i) (Item.Kind j).

(** No two consecutive items are segments of one kind. *)
Fixpoint strictly_alternates (its : list Item.t) : bool :=
  match its with
  | [] => true
  | i :: rest =>
      match rest with
      | [] => true
      | j :: _ => negb (same_segment i j)
      end && strictly_alternates rest
  end.
(* ------------------------------------------------------------------ *)
(** ** Facts about Go strings *)

Section StringFacts.

Lemma len_nonneg (s : string) : 0 <= len s.
Proof. unfold len. lia. Qed.

Lemma take_all (n : nat) (s : string) :
  (String.length s <= n)%nat -> take n s = s.
Proof.
  revert n. induction s as [|c s IH]; intros [|n] H; simpl in *;
    try reflexivity; try lia.
  f_equal. apply IH. lia.
Qed.

Lemma take_drop_app (a b : nat) (s : string) :
  (a <= b)%nat -> (take a s ++ take (b - a) (drop a s))%string = take b s.
Proof.
  revert b s. induction a as [|a IH]; intros b s H.
  - simpl. rewrite Nat.sub_0_r. destruct s; reflexivity.
  - destruct b as [|b]; [lia|]. destruct s as [|c s]; simpl.
    + destruct (b - a)%nat; reflexivity.
    + f_equal. apply IH. lia.
Qed.

Lemma length_drop (n : nat) (s : string) :
  String.length (drop n s) = (String.length s - n)%nat.
Proof.
  revert s. induction n as [|n IH]; intros [|c s]; simpl; auto.
Qed.

Lemma length_take (n : nat) (s : string) :
  String.length (take n s) = Nat.min n (String.length s).
Proof.
  revert s. induction n as [|n IH]; intros [|c s]; simpl; auto.
Qed.

Lemma app_empty_r (s : string) : (s ++ "")%string = s.
Proof. induction s; simpl; congruence. Qed.

Lemma app_assoc_s (a b c : string) :
  ((a ++ b) ++ c)%string = (a ++ (b ++ c))%string.
Proof. induction a; simpl; congruence. Qed.

Lemma join_app (l1 l2 : list string) :
  join (l1 ++ l2)%list = (join l1 ++ join l2)%string.
Proof.
  induction l1 as [|x l1 IH]; simpl.
  - reflexivity.
  - unfold join in *. simpl. rewrite IH, app_assoc_s. reflexivity.
Qed.

Lemma byte_range (c : ascii) : 0 <= byte c < 256.
Proof.
  unfold byte. pose proof (N_ascii_bounded c). lia.
Qed.

End StringFacts.

Lemma Zrange_In (lo : Z) (n : nat) (x : Z) :
  lo <= x < lo + Z.of_nat n -> In x (Zrange lo n).
Proof.
  revert lo. induction n as [|n IH]; intros lo H; simpl.
  - lia.
  - destruct (Z.eq_dec lo x); [left; assumption|].
    right. apply IH. lia.
Qed.

Lemma bytes_forall (P : Z -> bool) :
  forallb P (Zrange 0 256) = true ->
  forall x, 0 <= x < 256 -> P x = true.
Proof.
  intros H x Hx. rewrite forallb_forall in H. apply H.
  apply Zrange_In. simpl. lia.
Qed.

Lemma bytes_forall2 (P : Z -> Z -> bool) :
  forallb (fun x => forallb (P x) (Zrange 0 256)) (Zrange 0 256) = true ->
  forall x y, 0 <= x < 256 -> 0 <= y < 256 -> P x y = true.
Proof.
  intros H x y Hx Hy.
  apply (bytes_forall (fun x => forallb (P x) (Zrange 0 256))) in Hx;
    [|assumption].
  apply (bytes_forall (P x)); assumption.
Qed.

(* ------------------------------------------------------------------ *)
(** ** Facts about [utf8.DecodeRuneInString] *)

Section DecodeFacts.
Import utf8.

Lemma byte_at_range (s : string) (i : nat) : 0 <= byte_at s i < 256.
Proof.
  unfold byte_at. destruct (String.get i s) as [c|].
  - apply byte_range.
  - lia.
Qed.

(** A first byte is ASCII, invalid, or announces at least two bytes. *)
Lemma first_size (b : Z) : as_ <= first b \/ 2 <= Z.land (first b) 7 <= 4.
Proof.
  unfold first.
  repeat match goal with
         | |- context [if ?c then _ else _] => destruct c
         end; vm_compute; intuition congruence.
Qed.

(** The width of a decoded code point: at least one byte, and no more
    than the string holds. *)
Lemma decode_width (s : string) :
  1 <= len s ->
  1 <= snd (DecodeRuneInString s) <= len s.
Proof.
  intros Hn. unfold DecodeRuneInString. cbv zeta.
  destruct (Z.ltb_spec (len s) 1) as [E0|E0]; [lia|].
  destruct (first_size (byte_at s 0)) as [Hf|Hf].
  - apply Z.leb_le in Hf. rewrite Hf. simpl. lia.
  - destruct (as_ <=? first (byte_at s 0)); [simpl; lia|].
    destruct (len s <? _) eqn:E1; [simpl; lia|].
    apply Z.ltb_ge in E1.
    destruct (_ || _); [simpl; lia|].
    destruct (_ <=? 2) eqn:E2; [simpl; lia|].
    apply Z.leb_gt in E2.
    destruct (_ || _); [simpl; lia|].
    destruct (_ <=? 3) eqn:E3; [simpl; lia|].
    apply Z.leb_gt in E3.
    destruct (_ || _); simpl; lia.
Qed.

Lemma payload_check_all (b0 b1 : Z) :
  0 <= b0 < 256 -> 0 <= b1 < 256 -> payload_check b0 b1 = true.
Proof.
  apply (bytes_forall2 payload_check). vm_compute. reflexivity.
Qed.

Lemma lor_shiftl_zero (a b k : Z) :
  0 <= k -> Z.lor (Z.shiftl a k) b = 0 -> a = 0.
Proof.
  intros Hk H. apply Z.lor_eq_0_iff in H. destruct H as [H _].
  apply Z.shiftl_eq_0_iff in H; assumption.
Qed.

(** Only the byte zero decodes to the code point zero. *)
Lemma decode_zero (s : string) :
  1 <= len s ->
  fst (DecodeRuneInString s) = 0 ->
  byte_at s 0 = 0.
Proof.
  intros Hn. unfold DecodeRuneInString. cbv zeta.
  destruct (Z.ltb_spec (len s) 1) as [E0|E0]; [lia|].
  pose proof (payload_check_all (byte_at s 0) (byte_at s 1)
                (byte_at_range s 0) (byte_at_range s 1)) as Hc.
  unfold payload_check in Hc. cbv zeta in Hc.
  destruct (as_ <=? first (byte_at s 0)) eqn:Ea.
  - clear Hc. cbn [fst].
    assert (Hx : first (byte_at s 0) = as_ \/ first (byte_at s 0) = xx).
    { revert Ea. unfold first.
      repeat match goal with
             | |- context [if ?c then _ else _] => destruct c
             end; vm_compute; intuition congruence. }
    destruct Hx as [-> | ->].
    + change (Z.odd as_) with false. cbv iota.
      change (Z.lnot 0) with (-1).
      rewrite Z.land_m1_r, Z.land_0_r, Z.lor_0_r. trivial.
    + change (Z.odd xx) with true. cbv iota.
      change (Z.lnot (-1)) with 0.
      rewrite Z.land_0_r, Z.land_m1_r, Z.lor_0_l.
      unfold RuneError. discriminate.
  - destruct (len s <? _); [simpl; unfold RuneError; discriminate|].
    destruct (_ || _); [simpl; unfold RuneError; discriminate|].
    destruct (Z.land (first (byte_at s 0)) 7 <=? 2) eqn:E2.
    { cbn [fst]. intros H. exfalso.
      assert (H0 := lor_shiftl_zero _ _ 6 ltac:(lia) H).
      apply Z.lor_eq_0_iff in H. destruct H as [_ H1].
      rewrite H0, H1 in Hc. discriminate. }
    destruct (_ || _); [simpl; unfold RuneError; discriminate|].
    destruct (Z.land (first (byte_at s 0)) 7 <=? 3) eqn:E3.
    { cbn [fst]. intros H. exfalso.
      apply Z.lor_eq_0_iff in H. destruct H as [H _].
      assert (H0 := lor_shiftl_zero _ _ 12 ltac:(lia) H).
      apply Z.lor_eq_0_iff in H. destruct H as [_ H1].
      apply Z.shiftl_eq_0_iff in H1; [|lia].
      rewrite H0, H1 in Hc. discriminate. }
    destruct (_ || _); [simpl; unfold RuneError; discriminate|].
    cbn [fst]. intros H. exfalso.
    apply Z.lor_eq_0_iff in H. destruct H as [H _].
    apply Z.lor_eq_0_iff in H. destruct H as [H _].
    assert (H0 := lor_shiftl_zero _ _ 18 ltac:(lia) H).
    apply Z.lor_eq_0_iff in H. destruct H as [_ H1].
    apply Z.shiftl_eq_0_iff in H1; [|lia].
    rewrite H0, H1 in Hc. discriminate.
Qed.

End DecodeFacts.

(* ------------------------------------------------------------------ *)
(** ** The cursor operations, one by one *)

Section CursorOps.

Variable inp : string.

Lemma Forall_snoc {A} (P : A -> Prop) (l : list A) (x : A) :
  Forall P l -> P x -> Forall P (l ++ [x])%list.
Proof. intros. apply Forall_app. split; [assumption|constructor; auto]. Qed.

Lemma has_nul_drop (n : nat) (s : string) :
  (n < String.length s)%nat -> byte_at (drop n s) 0 = 0 -> has_nul s = true.
Proof.
  revert s. induction n as [|n IH]; intros [|c s] Hn H; simpl in *; try lia.
  - unfold byte_at in H. simpl in H. rewrite H. reflexivity.
  - rewrite (IH s); [apply orb_true_r|lia|assumption].
Qed.

(** [next] at the end of the input: the sentinel, width zero, the cursor
    unmoved. *)
Lemma next_at_end (s : Run) :
  len (input (lx s)) <= Position (lx s) ->
  next s = Ok (eof, mkRun (set_width (lx s) 0)
                      (visited s ++ [set_width (lx s) 0])).
Proof.
  intros H. unfold next, bind, get. rewrite Z.geb_leb.
  apply Z.leb_le in H. rewrite H. reflexivity.
Qed.

(** [next] inside the input: the code point at the cursor, its width
    recorded and added to the position. *)
Lemma next_inside (s : Run) :
  0 <= Position (lx s) < len (input (lx s)) ->
  next s =
  let l1 := set_width (lx s) (snd (peek (lx s))) in
  let l2 := set_Position l1 (Position (lx s) + snd (peek (lx s))) in
  Ok (fst (peek (lx s)), mkRun l2 ((visited s ++ [l1]) ++ [l2])).
Proof.
  intros H. unfold next, bind, get. rewrite Z.geb_leb.
  destruct (Z.leb_spec (len (input (lx s))) (Position (lx s))) as [E|E]; [lia|].
  unfold slice_from, slice, lift.
  replace ((0 <=? Position (lx s))
           && (Position (lx s) <=? len (input (lx s)))
           && (len (input (lx s)) <=? len (input (lx s)))) with true
    by (symmetry; rewrite !andb_true_iff, !Z.leb_le; lia).
  rewrite take_all.
  2:{ rewrite length_drop. unfold len. lia. }
  unfold peek. destruct (utf8.DecodeRuneInString _) as [r w].
  reflexivity.
Qed.

Lemma peek_width (l : Lexer) :
  0 <= Position l < len (input l) ->
  1 <= snd (peek l) <= len (input l) - Position l.
Proof.
  intros H. unfold peek.
  pose proof (decode_width (drop (Z.to_nat (Position l)) (input l))) as W.
  unfold len in W at 1 2. rewrite length_drop in W.
  unfold len in H |- *. lia.
Qed.

Lemma peek_zero (l : Lexer) :
  0 <= Position l < len (input l) ->
  fst (peek l) = 0 -> has_nul (input l) = true.
Proof.
  intros H Hz. unfold peek in Hz.
  apply decode_zero in Hz.
  - apply has_nul_drop in Hz; [assumption|]. unfold len in H. lia.
  - unfold len. rewrite length_drop. unfold len in H. lia.
Qed.

(** What [next] does to a good state. *)
Lemma next_spec (s : Run) :
  good inp s ->
  exists r s',
    next s = Ok (r, s')
    /\ good inp s'
    /\ start (lx s') = start (lx s)
    /\ Items (lx s') = Items (lx s)
    /\ ((r = eof /\ Position (lx s') = Position (lx s)
         /\ Position (lx s) = len inp)
        \/ (Position (lx s) < len inp
            /\ r = fst (peek (lx s))
            /\ 1 <= snd (peek (lx s))
            /\ Position (lx s') = Position (lx s) + snd (peek (lx s)))).
Proof.
  intros [Hi [H0 [H1 H2]] Hv Ho Hc Hk Hne].
  destruct (Z.le_gt_cases (len (input (lx s))) (Position (lx s))) as [E|E].
  - eexists _, _. split; [apply next_at_end; assumption|].
    split; [|split; [reflexivity|split; [reflexivity|]]].
    + constructor; simpl; try assumption.
      * repeat split; assumption.
      * apply Forall_snoc; [assumption|]. repeat split; assumption.
    + left. simpl. subst inp. repeat split; lia.
  - assert (Hp : 0 <= Position (lx s) < len (input (lx s))) by lia.
    pose proof (peek_width _ Hp) as W.
    eexists _, _. split; [apply next_inside; assumption|].
    cbv zeta.
    split; [|split; [reflexivity|split; [reflexivity|]]].
    + constructor; simpl; try assumption.
      * repeat split; simpl; lia.
      * apply Forall_snoc; [apply Forall_snoc; [assumption|]|];
          repeat split; simpl; lia.
    + right. simpl. subst inp. repeat split; lia.
Qed.

Lemma backup_spec (s : Run) :
  good inp s ->
  start (lx s) < Position (lx s) ->
  exists s',
    backup s = Ok (tt, s')
    /\ good inp s'
    /\ start (lx s') = start (lx s)
    /\ Items (lx s') = Items (lx s)
    /\ Position (lx s') = Position (lx s) - 1.
Proof.
  intros [Hi [H0 [H1 H2]] Hv Ho Hc Hk Hne] Hlt.
  eexists. split; [reflexivity|].
  split; [|repeat split].
  constructor; simpl; try assumption.
  - repeat split; simpl; lia.
  - apply Forall_snoc; [assumption|]. repeat split; simpl; lia.
Qed.

(** [emit] on a lexer whose cursor is in order and whose channel is
    open. *)
Lemma emit_eq (k : ItemKind) (s : Run) :
  cursor_ok (lx s) ->
  closed (lx s) = false ->
  emit k s =
  let l := lx s in
  let i := Item.mk (start l) k
             (take (Z.to_nat (Position l - start l))
                (drop (Z.to_nat (start l)) (input l))) in
  let l1 := set_Items l (Items l ++ [i]) in
  let l2 := set_start l1 (Position l) in
  Ok (tt, mkRun l2 ((visited s ++ [l1]) ++ [l2])).
Proof.
  intros [H0 [H1 H2]] Ho.
  unfold emit, bind, get, lift, slice.
  replace ((0 <=? start (lx s)) && (start (lx s) <=? Position (lx s))
           && (Position (lx s) <=? len (input (lx s)))) with true
    by (symmetry; rewrite !andb_true_iff, !Z.leb_le; lia).
  unfold send, bind, get. rewrite Ho. reflexivity.
Qed.

Lemma emit_spec (k : ItemKind) (s : Run) :
  good inp s ->
  segment_kind k = true ->
  (inp <> "" -> start (lx s) < Position (lx s)) ->
  exists s',
    emit k s = Ok (tt, s')
    /\ good inp s'
    /\ Position (lx s') = Position (lx s)
    /\ start (lx s') = Position (lx s)
    /\ exists i, Item.Kind i = k
                 /\ Items (lx s') = (Items (lx s) ++ [i])%list.
Proof.
  intros [Hi Hw Hv Ho Hc Hk Hne] Hseg Hpend.
  eexists. split; [apply emit_eq; assumption|].
  cbv zeta. destruct Hw as [H0 [H1 H2]].
  split; [|split; [reflexivity|split; [reflexivity|]]].
  2:{ eexists. split; [|reflexivity]. reflexivity. }
  constructor; simpl; try assumption.
  - repeat split; simpl; lia.
  - apply Forall_snoc; [apply Forall_snoc; [assumption|]|];
      repeat split; simpl; lia.
  - rewrite map_app, join_app, Hc. simpl. rewrite app_empty_r.
    rewrite Hi.
    replace (Z.to_nat (Position (lx s) - start (lx s)))
      with (Z.to_nat (Position (lx s)) - Z.to_nat (start (lx s)))%nat by lia.
    apply take_drop_app. lia.
  - apply Forall_snoc; [assumption|]. exact Hseg.
  - intros Hin. apply Forall_snoc; [auto|]. cbn [Item.Value].
    specialize (Hpend Hin). intros Hz.
    apply (f_equal String.length) in Hz.
    rewrite length_take, length_drop in Hz. cbn [String.length] in Hz.
    rewrite Hi in *. unfold len in *. lia.
Qed.

End CursorOps.

(* ------------------------------------------------------------------ *)
(** ** The state handlers *)

Section Handlers.

Variable inp : string.

(** [lexEOF] emits the pending segment and then the [EOF] item, whatever
    the pending segment holds. *)
Lemma lexEOF_spec (k : ItemKind) (s : Run) :
  good inp s ->
  segment_kind k = true ->
  (has_nul inp = false -> Position (lx s) = len inp) ->
  (inp <> "" -> start (lx s) < Position (lx s)) ->
  exists s',
    lexEOF k s = Ok (None, s')
    /\ Position (lx s') = Position (lx s)
    /\ final inp s'
    /\ exists i, Item.Kind i = k
                 /\ Items (lx s')
                    = (Items (lx s)
                       ++ [i; Item.mk (Position (lx s)) EOF ""])%list.
Proof.
  intros G Hk Hend Hpend.
  pose proof G as [Hi [H0 [H1 H2]] Hv Ho Hc Hks Hne].
  unfold lexEOF, bind at 1 2, get.
  rewrite Z.gtb_ltb.
  destruct (Z.ltb_spec (Position (lx s)) (start (lx s))) as [E|E]; [lia|].
  unfold ret at 1.
  destruct (emit_spec inp k s G Hk Hpend)
    as (s1 & E1 & G1 & P1 & S1 & i & Ki & I1).
  unfold bind at 1. rewrite E1.
  pose proof G1 as [Hi1 Hw1 Hv1 Ho1 Hc1 Hks1 Hne1].
  unfold bind. rewrite (emit_eq EOF s1 Hw1 Ho1). cbv zeta. unfold ret.
  eexists. split; [reflexivity|]. simpl.
  split; [assumption|].
  destruct Hw1 as [A0 [A1 A2]].
  assert (Hnil : take (Z.to_nat (Position (lx s1) - start (lx s1)))
                   (drop (Z.to_nat (start (lx s1))) (input (lx s1))) = "").
  { rewrite S1, P1.
    replace (Z.to_nat (Position (lx s) - Position (lx s))) with 0%nat by lia.
    destruct (drop _ _); reflexivity. }
  rewrite Hnil.
  split.
  2:{ exists i. split; [assumption|].
      rewrite I1, S1, <- app_assoc. reflexivity. }
  constructor; simpl; try assumption.
  - repeat split; simpl; lia.
  - apply Forall_snoc; [apply Forall_snoc; [assumption|]|];
      repeat split; simpl; lia.
  - exists (Items (lx s1)). rewrite S1, P1.
    split; [|split; [|split]].
    + reflexivity.
    + assumption.
    + rewrite Hc1, S1. reflexivity.
    + assumption.
  - rewrite P1. exact Hend.
Qed.

Lemma peek_same (l l' : Lexer) :
  input l' = input l -> Position l' = Position l -> peek l' = peek l.
Proof. intros Hi Hp. unfold peek. rewrite Hi, Hp. reflexivity. Qed.

Lemma lexRun_spec (k : ItemKind) (boundary : Z -> bool) (f nxt : stateFn) :
  segment_kind k = true ->
  (forall l, stalls f l = (Position l <? len (input l))
                          && negb (fst (peek l) =? eof)
                          && boundary (fst (peek l))) ->
  (forall l, stalls nxt l = (Position l <? len (input l))
                            && negb (fst (peek l) =? eof)
                            && negb (boundary (fst (peek l)))) ->
  forall (fuel : nat) (s : Run),
    good inp s ->
    room inp (lx s) ->
    (Z.to_nat (len inp - Position (lx s)) < fuel)%nat ->
    exists out s',
      lexRun k boundary nxt fuel s = Ok (out, s')
      /\ handler_post inp f s out s'.
Proof.
  intros Hk Hf Hn.
  induction fuel as [|fuel IH]; intros s G R Hfuel; [lia|].
  simpl lexRun.
  destruct (next_spec inp s G) as (r & s1 & E1 & G1 & S1 & I1 & Hcase).
  unfold bind at 1. rewrite E1.
  pose proof G as [Hi [H0 [H1 H2]] _ _ _ _ _].
  pose proof G1 as [Hi1 [A0 [A1 A2]] _ _ _ _ _].
  unfold room in R.
  destruct Hcase as [(Hr & P1 & Pend) | (Plt & Hr & W & P1)].
  - (* the end of the input *)
    subst r. rewrite Z.eqb_refl.
    destruct (lexEOF_spec k s1 G1 Hk ltac:(lia) ltac:(intros Hin; specialize (R Hin); lia))
      as (s2 & E2 & P2 & F2 & _).
    exists None, s2. split; [assumption|]. exact F2.
  - destruct (Z.eqb_spec r eof) as [Ez|Ez].
    + (* the code point zero inside the input *)
      assert (Hnul : has_nul inp = true).
      { rewrite <- Hi. apply peek_zero; [rewrite Hi; lia|].
        rewrite <- Hr. exact Ez. }
      destruct (lexEOF_spec k s1 G1 Hk ltac:(congruence) ltac:(lia))
        as (s2 & E2 & P2 & F2 & _).
      exists None, s2. split; [assumption|]. exact F2.
    + destruct (boundary r) eqn:Eb.
      * (* a code point of the other class: step back and hand over *)
        destruct (backup_spec inp s1 G1 ltac:(lia))
          as (s2 & E2 & G2 & S2 & I2 & P2).
        unfold bind at 1. rewrite E2. unfold bind at 1, get.
        assert (Hm : forall s3, good inp s3 ->
                     Position (lx s3) = Position (lx s2) ->
                     room inp (lx s3)
                     /\ (measure nxt (lx s3) < measure f (lx s))%nat).
        { intros s3 G3 P3.
          pose proof G3 as [Hi3 _ _ _ _ _ _].
          split; [intros _; right; rewrite Hi1 in A2; lia|].
          unfold measure. rewrite (Hf (lx s)), (Hn (lx s3)).
          rewrite Hi, Hi3.
          destruct (Z.ltb_spec (Position (lx s)) (len inp)) as [_|]; [|lia].
          rewrite <- Hr.
          destruct (Z.eqb_spec r eof) as [|_]; [contradiction|].
          rewrite Eb. simpl andb.
          destruct (Z.eq_dec (snd (peek (lx s))) 1) as [W1|W1].
          - assert (Pe : Position (lx s3) = Position (lx s)) by lia.
            rewrite (peek_same (lx s) (lx s3)) by congruence.
            rewrite <- Hr, Eb, andb_false_r, Pe. lia.
          - destruct (_ && _); lia. }
        rewrite Z.gtb_ltb.
        destruct (Z.ltb_spec (start (lx s2)) (Position (lx s2))) as [E|E].
        -- destruct (emit_spec inp k s2 G2 Hk ltac:(lia))
             as (s3 & E3 & G3 & P3 & S3 & _).
           unfold bind. rewrite E3. unfold ret.
           exists (Some nxt), s3. split; [reflexivity|].
           split; [assumption|]. apply Hm; assumption.
        -- unfold bind, ret.
           exists (Some nxt), s2. split; [reflexivity|].
           split; [assumption|]. apply Hm; [assumption|reflexivity].
      * (* a code point of this handler's class: go on *)
        destruct (IH s1 G1 ltac:(intros _; left; lia) ltac:(lia))
          as (out & s' & E & Post).
        exists out, s'. split; [assumption|].
        destruct out as [f'|]; [|exact Post].
        destruct Post as (G' & R' & Hlt).
        split; [assumption|]. split; [assumption|].
        eapply Nat.lt_le_trans; [exact Hlt|].
        unfold measure. rewrite Hi, Hi1, P1.
        destruct (stalls f (lx s1)), (stalls f (lx s)); lia.
Qed.

Lemma lexText_lexRun (fuel : nat) :
  lexText fuel = lexRun Text unicode.IsSpace fn_lexWhitespace fuel.
Proof. induction fuel as [|fuel IH]; simpl; [|rewrite IH]; reflexivity. Qed.

Lemma lexWhitespace_lexRun (fuel : nat) :
  lexWhitespace fuel
  = lexRun WhiteSpace (fun r => negb (unicode.IsSpace r)) fn_lexText fuel.
Proof. induction fuel as [|fuel IH]; simpl; [|rewrite IH]; reflexivity. Qed.

Lemma call_spec (f : stateFn) (fuel : nat) (s : Run) :
  good inp s ->
  room inp (lx s) ->
  (Z.to_nat (len inp - Position (lx s)) < fuel)%nat ->
  exists out s',
    call fuel f s = Ok (out, s') /\ handler_post inp f s out s'.
Proof.
  intros G R Hfuel. destruct f; simpl call.
  - rewrite lexText_lexRun.
    apply lexRun_spec; try assumption; reflexivity.
  - rewrite lexWhitespace_lexRun.
    apply lexRun_spec; try assumption; try reflexivity.
    intros l. unfold stalls. rewrite negb_involutive. reflexivity.
Qed.

(** The loop of [scan] ends, in a final state. *)
Lemma scan_loop_spec (fuel : nat) :
  forall (f : stateFn) (s : Run),
    good inp s ->
    room inp (lx s) ->
    (measure f (lx s) < fuel)%nat ->
    exists s',
      scan_loop fuel (Some f) s = Ok (tt, s') /\ final inp s'.
Proof.
  induction fuel as [|fuel IH]; intros f s G R Hm; [lia|].
  simpl scan_loop.
  assert (Hfuel : (Z.to_nat (len inp - Position (lx s)) < S fuel)%nat).
  { pose proof G as [Hi _ _ _ _ _ _]. unfold measure in Hm.
    rewrite Hi in Hm. lia. }
  destruct (call_spec f (S fuel) s G R Hfuel) as (out & s1 & E & Post).
  unfold bind. rewrite E.
  destruct out as [f'|].
  - destruct Post as (G1 & R1 & Hlt). apply IH; [assumption|assumption|lia].
  - destruct fuel; simpl; unfold ret; eauto.
Qed.

End Handlers.

(* ------------------------------------------------------------------ *)
(** ** A whole scan *)

Section Scan.

Lemma good_new (inp : string) :
  good inp (mkRun (new_Lexer inp) [new_Lexer inp]).
Proof.
  pose proof (len_nonneg inp).
  constructor; simpl.
  - reflexivity.
  - repeat split; simpl; lia.
  - constructor; [|constructor]. repeat split; simpl; lia.
  - reflexivity.
  - destruct inp; reflexivity.
  - constructor.
  - constructor.
Qed.

Lemma room_new (inp : string) : room inp (new_Lexer inp).
Proof.
  intros Hne. right. simpl. destruct inp; [contradiction|].
  unfold len. simpl. lia.
Qed.

Lemma measure_new (inp : string) (f : stateFn) :
  (measure f (new_Lexer inp) < enough inp)%nat.
Proof.
  unfold measure, enough. simpl. unfold len.
  destruct (stalls _ _); lia.
Qed.

(** Every scan runs to its end, with the fuel of [Lex] or more. *)
Lemma Lex_run_spec (inp : string) (extra : nat) :
  exists s, Lex_run (enough inp + extra) inp = Ok s /\ finished inp s.
Proof.
  unfold Lex_run, scan.
  destruct (scan_loop_spec inp (enough inp + extra) fn_lexText _
              (good_new inp) (room_new inp))
    as (s1 & E & [Hi Hw Hv Ho Hit He]).
  { pose proof (measure_new inp fn_lexText). cbn [lx]. lia. }
  unfold bind at 1. rewrite E.
  unfold close_Items, bind, get. rewrite Ho. unfold put.
  eexists. split; [reflexivity|].
  constructor; simpl; try assumption.
  - reflexivity.
  - apply Forall_snoc; assumption.
Qed.

(** More fuel does not change the outcome of a handler that returns. *)
Lemma lexRun_more (k : ItemKind) (boundary : Z -> bool) (nxt : stateFn)
  (fuel : nat) :
  forall (s : Run) (r : option stateFn * Run) (extra : nat),
    lexRun k boundary nxt fuel s = Ok r ->
    lexRun k boundary nxt (fuel + extra) s = Ok r.
Proof.
  induction fuel as [|fuel IH]; intros s r extra H; [discriminate|].
  simpl in H |- *. unfold bind at 1 in H. unfold bind at 1.
  destruct (next s) as [[c s1]| | |]; try discriminate.
  destruct (c =? eof); [assumption|].
  destruct (boundary c); [assumption|].
  apply IH. assumption.
Qed.

Lemma call_more (fuel : nat) (f : stateFn) (s : Run)
  (r : option stateFn * Run) (extra : nat) :
  call fuel f s = Ok r -> call (fuel + extra) f s = Ok r.
Proof.
  destruct f; simpl; rewrite ?lexText_lexRun, ?lexWhitespace_lexRun;
    apply lexRun_more.
Qed.

Lemma scan_loop_more (fuel : nat) :
  forall (fn : option stateFn) (s : Run) (r : unit * Run) (extra : nat),
    scan_loop fuel fn s = Ok r ->
    scan_loop (fuel + extra) fn s = Ok r.
Proof.
  induction fuel as [|fuel IH]; intros [f|] s r extra H;
    try discriminate; try (destruct extra; exact H).
  change (S fuel + extra)%nat with (S (fuel + extra)).
  cbn [scan_loop] in H |- *.
  unfold bind in H |- *.
  destruct (call (S fuel) f s) as [[fn' s1]| | |] eqn:E; try discriminate.
  change (S (fuel + extra)) with (S fuel + extra)%nat.
  rewrite (call_more _ _ _ _ extra E).
  apply IH. assumption.
Qed.

(** The outcome of [Lex] is the outcome of every longer run. *)
Lemma Lex_run_more (inp : string) (extra : nat) :
  Lex_run (enough inp + extra) inp = Lex_run (enough inp) inp.
Proof.
  destruct (Lex_run_spec inp 0) as (s & E & _).
  rewrite Nat.add_0_r in E. rewrite E.
  unfold Lex_run, scan in E |- *. unfold bind in E |- *.
  destruct (scan_loop (enough inp) _ _) as [[u s1]| | |] eqn:E1;
    try discriminate.
  rewrite (scan_loop_more _ _ _ _ extra E1). assumption.
Qed.

Lemma Lex_spec (inp : string) :
  exists s, Lex_run (enough inp) inp = Ok s
            /\ Lex inp = Ok (lx s)
            /\ finished inp s.
Proof.
  destruct (Lex_run_spec inp 0) as (s & E & F).
  rewrite Nat.add_0_r in E.
  exists s. unfold Lex, Lex_with. rewrite E. auto.
Qed.

End Scan.

(* ------------------------------------------------------------------ *)
(** ** Alternation of the segments of an ASCII input *)

Section Alternation.

Variable inp : string.
Hypothesis inp_ascii : is_ascii inp = true.

Lemma last_item_snoc (its : list Item.t) (j : Item.t) :
  last_item (its ++ [j]) = Some j.
Proof.
  induction its as [|i its IH]; simpl; [reflexivity|].
  rewrite IH. destruct (its ++ [j])%list eqn:E; [|reflexivity].
  destruct its; discriminate.
Qed.

Lemma alternates_snoc (its : list Item.t) (j : Item.t) :
  alternates its = true ->
  (forall i, last_item its = Some i -> clash i j = false) ->
  alternates (its ++ [j]) = true.
Proof.
  induction its as [|i its IH]; intros Ha Hl; simpl; [reflexivity|].
  simpl in Ha. apply andb_true_iff in Ha. destruct Ha as [Hh Ht].
  destruct its as [|i' its].
  - simpl. rewrite (Hl i eq_refl). reflexivity.
  - simpl app. cbn iota. rewrite Hh. simpl andb.
    apply IH; [assumption|]. intros x Hx. apply Hl. exact Hx.
Qed.

Lemma clash_kinds (i j : Item.t) :
  Item.Kind i <> Item.Kind j -> clash i j = false.
Proof.
  intros H. unfold clash.
  destruct (Item.Kind i), (Item.Kind j); simpl;
    rewrite ?andb_false_r; try reflexivity; congruence.
Qed.

Lemma clash_terminal (i j : Item.t) :
  terminal j = true -> clash i j = false.
Proof.
  intros H. unfold clash. rewrite H. simpl.
  rewrite andb_false_r. reflexivity.
Qed.

(** In an ASCII string every code point is one byte wide. *)
Lemma ascii_drop (n : nat) (s : string) :
  is_ascii s = true -> (n < String.length s)%nat ->
  byte_at (drop n s) 0 < 0x80.
Proof.
  revert s. induction n as [|n IH]; intros [|c s] Ha Hn; simpl in *;
    try lia; apply andb_true_iff in Ha; destruct Ha as [Hc Hs].
  - unfold byte_at. simpl. apply Z.ltb_lt. exact Hc.
  - apply IH; [assumption|lia].
Qed.

Lemma decode_ascii (s : string) :
  1 <= len s -> byte_at s 0 < 0x80 ->
  snd (utf8.DecodeRuneInString s) = 1.
Proof.
  intros Hn Hb. unfold utf8.DecodeRuneInString. cbv zeta.
  destruct (Z.ltb_spec (len s) 1); [lia|].
  unfold utf8.first at 1.
  destruct (Z.ltb_spec (byte_at s 0) 128); [|lia].
  reflexivity.
Qed.

Lemma peek_ascii (l : Lexer) :
  input l = inp -> 0 <= Position l < len inp -> snd (peek l) = 1.
Proof.
  intros Hi Hp. unfold peek. rewrite Hi.
  apply decode_ascii.
  - unfold len in *. rewrite length_drop. lia.
  - apply ascii_drop; [assumption|]. unfold len in Hp. lia.
Qed.

(** One handler keeps the alternation, and hands over in a state where
    the next handler keeps it too. *)
Lemma lexRun_alt (k : ItemKind) (boundary : Z -> bool) (f nxt : stateFn) :
  segment_kind k = true ->
  kind_of f = k ->
  kind_of nxt <> k ->
  (forall l, stalls f l = (Position l <? len (input l))
                          && negb (fst (peek l) =? eof)
                          && boundary (fst (peek l))) ->
  (forall l, stalls nxt l = (Position l <? len (input l))
                            && negb (fst (peek l) =? eof)
                            && negb (boundary (fst (peek l)))) ->
  forall (fuel : nat) (s : Run) (out : option stateFn) (s' : Run),
    good inp s ->
    room inp (lx s) ->
    alt_inv f (lx s) ->
    lexRun k boundary nxt fuel s = Ok (out, s') ->
    match out with
    | None => alternates (Items (lx s')) = true
    | Some f' => alt_inv f' (lx s')
    end.
Proof.
  intros Hk Hkf Hkn Hf Hn.
  induction fuel as [|fuel IH]; intros s out s' G R [Ha Hl] Hrun;
    [discriminate|].
  simpl lexRun in Hrun.
  destruct (next_spec inp s G) as (r & s1 & E1 & G1 & S1 & I1 & Hcase).
  unfold bind at 1 in Hrun. rewrite E1 in Hrun.
  pose proof G as [Hi [H0 [H1 H2]] _ _ _ _ _].
  pose proof G1 as [Hi1 [A0 [A1 A2]] _ _ _ _ _].
  rewrite Hi in H2. rewrite Hi1 in A2.
  assert (Heof : (inp <> "" -> start (lx s1) < Position (lx s1)) ->
                 (has_nul inp = false -> Position (lx s1) = len inp) ->
                 lexEOF k s1 = Ok (out, s') ->
                 match out with
                 | None => alternates (Items (lx s')) = true
                 | Some f' => alt_inv f' (lx s')
                 end).
  { intros Hpend Hend Hrun'.
    destruct (lexEOF_spec inp k s1 G1 Hk Hend Hpend)
      as (s2 & E2 & _ & _ & i & Ki & I2).
    rewrite E2 in Hrun'. injection Hrun' as <- <-.
    rewrite I2, I1.
    change (Items (lx s) ++ [i; Item.mk (Position (lx s1)) EOF ""])%list
      with (Items (lx s) ++ [i] ++ [Item.mk (Position (lx s1)) EOF ""])%list.
    rewrite app_assoc.
    apply alternates_snoc.
    - apply alternates_snoc; [assumption|].
      intros x Hx. apply clash_kinds.
      destruct (Hl x Hx) as [Hx' _]. congruence.
    - intros x _. apply clash_terminal. reflexivity. }
  unfold room in R.
  destruct Hcase as [(Hr & P1 & Pend) | (Plt & Hr & W & P1)].
  - subst r. rewrite Z.eqb_refl in Hrun.
    apply Heof; [intros Hin; specialize (R Hin); lia|lia|assumption].
  - destruct (Z.eqb_spec r eof) as [Ez|Ez].
    + apply Heof; [lia| |assumption].
      intros Hnul. exfalso.
      assert (has_nul inp = true); [|congruence].
      rewrite <- Hi. apply peek_zero; [rewrite Hi; lia|].
      rewrite <- Hr. exact Ez.
    + clear Heof.
      assert (W1 : snd (peek (lx s)) = 1) by (apply peek_ascii; [assumption|lia]).
      destruct (boundary r) eqn:Eb.
      * assert (Hstall : stalls f (lx s) = true).
        { rewrite Hf, Hi, <- Hr, Eb.
          destruct (Z.ltb_spec (Position (lx s)) (len inp)); [|lia].
          destruct (Z.eqb_spec r eof); [contradiction|]. reflexivity. }
        destruct (backup_spec inp s1 G1 ltac:(lia))
          as (s2 & E2 & G2 & S2 & I2 & P2).
        unfold bind at 1 in Hrun. rewrite E2 in Hrun.
        unfold bind at 1, get in Hrun.
        pose proof G2 as [Hi2 _ _ _ _ _ _].
        assert (Hns : forall l, input l = inp ->
                        Position l = Position (lx s) ->
                        stalls nxt l = false).
        { intros l Hil Hpl. rewrite Hn.
          rewrite (peek_same (lx s) l) by congruence.
          rewrite <- Hr, Eb. simpl. apply andb_false_r. }
        rewrite Z.gtb_ltb in Hrun.
        destruct (Z.ltb_spec (start (lx s2)) (Position (lx s2))) as [E|E].
        -- destruct (emit_spec inp k s2 G2 Hk ltac:(lia))
             as (s3 & E3 & G3 & P3 & S3 & i & Ki & I3).
           unfold bind, ret in Hrun. rewrite E3 in Hrun.
           injection Hrun as <- <-.
           pose proof G3 as [Hi3 _ _ _ _ _ _].
           unfold alt_inv. rewrite I3, I2, I1. split.
           ++ apply alternates_snoc; [assumption|].
              intros x Hx. apply clash_kinds.
              destruct (Hl x Hx) as [Hx' _]. congruence.
           ++ intros x Hx. rewrite last_item_snoc in Hx.
              injection Hx as <-. split; [congruence|].
              intros _. apply Hns; [assumption|lia].
        -- unfold bind, ret in Hrun. injection Hrun as <- <-.
           unfold alt_inv. rewrite I2, I1. split; [assumption|].
           intros x Hx. exfalso.
           destruct (Hl x Hx) as [_ Hx'].
           rewrite Hx' in Hstall; [discriminate|lia].
      * apply (IH s1 out s' G1); [intros _; left; lia| |assumption].
        unfold alt_inv. rewrite I1. split; [assumption|].
        intros x Hx. destruct (Hl x Hx) as [Hx' _].
        split; [assumption|]. intros; lia.
Qed.

Lemma call_alt (f : stateFn) (fuel : nat) (s : Run)
  (out : option stateFn) (s' : Run) :
  good inp s ->
  room inp (lx s) ->
  alt_inv f (lx s) ->
  call fuel f s = Ok (out, s') ->
  match out with
  | None => alternates (Items (lx s')) = true
  | Some f' => alt_inv f' (lx s')
  end.
Proof.
  intros G R A. destruct f; simpl call.
  - rewrite lexText_lexRun.
    apply (lexRun_alt Text unicode.IsSpace fn_lexText fn_lexWhitespace);
      try assumption; try reflexivity; discriminate.
  - rewrite lexWhitespace_lexRun.
    apply (lexRun_alt WhiteSpace (fun r => negb (unicode.IsSpace r))
             fn_lexWhitespace fn_lexText);
      try assumption; try reflexivity; try discriminate.
    intros l. unfold stalls. rewrite negb_involutive. reflexivity.
Qed.

Lemma scan_loop_alt (fuel : nat) :
  forall (f : stateFn) (s s' : Run),
    good inp s ->
    room inp (lx s) ->
    alt_inv f (lx s) ->
    (measure f (lx s) < fuel)%nat ->
    scan_loop fuel (Some f) s = Ok (tt, s') ->
    alternates (Items (lx s')) = true.
Proof.
  induction fuel as [|fuel IH]; intros f s s' G R A Hm Hrun; [lia|].
  simpl scan_loop in Hrun.
  assert (Hfuel : (Z.to_nat (len inp - Position (lx s)) < S fuel)%nat).
  { pose proof G as [Hi _ _ _ _ _ _]. unfold measure in Hm.
    rewrite Hi in Hm. lia. }
  destruct (call_spec inp f (S fuel) s G R Hfuel) as (out & s1 & E & Post).
  unfold bind in Hrun. rewrite E in Hrun.
  pose proof (call_alt f (S fuel) s out s1 G R A E) as A1.
  destruct out as [f'|].
  - destruct Post as (G1 & R1 & Hlt).
    apply (IH f' s1 s' G1 R1 A1); [lia|assumption].
  - destruct fuel; simpl in Hrun; unfold ret in Hrun;
      injection Hrun as <-; assumption.
Qed.

End Alternation.


(* ------------------------------------------------------------------ *)
(** ** The reference consumer *)

Section Consumer.
Import parser.

Lemma segment_not_terminal (i : Item.t) : segment i -> terminal i = false.
Proof.
  unfold segment, terminal. destruct (Item.Kind i); simpl; congruence.
Qed.

Lemma before_terminal_segments (pre : list Item.t) (t : Item.t)
  (rest : list Item.t) :
  Forall segment pre -> terminal t = true ->
  before_terminal (pre ++ t :: rest) = pre.
Proof.
  intros H Ht. induction H as [|i pre Hi _ IH]; simpl.
  - rewrite Ht. reflexivity.
  - rewrite (segment_not_terminal i Hi), IH. reflexivity.
Qed.

Lemma filter_segments (pre : list Item.t) (t : Item.t) :
  Forall segment pre -> terminal t = true ->
  filter (fun i => negb (terminal i)) (pre ++ [t]) = pre.
Proof.
  intros H Ht. induction H as [|i pre Hi _ IH]; simpl.
  - rewrite Ht. reflexivity.
  - rewrite (segment_not_terminal i Hi), IH. reflexivity.
Qed.

(** The loop of [parse] over segments that end with an [EOF] item: the
    builder receives every segment transformed, and becomes the result. *)
Lemma parse_loop_segments (pre : list Item.t) :
  Forall segment pre ->
  forall (t : Item.t) (rest : list Item.t) (sb : string) (p : parser),
    Item.Kind t = EOF ->
    parse_loop (pre ++ t :: rest) sb p
    = Ok (mkParser (sb ++ reassemble pre) (lex p) (errItem p)).
Proof.
  induction 1 as [|i pre Hi _ IH]; intros t rest sb p Ht; simpl.
  - rewrite Ht. unfold reassemble. simpl. rewrite app_empty_r. reflexivity.
  - unfold segment in Hi.
    change (reassemble (i :: pre))
      with (transform i ++ reassemble pre)%string.
    unfold transform.
    destruct (Item.Kind i); try discriminate;
      rewrite (IH t rest _ p Ht); rewrite app_assoc_s; reflexivity.
Qed.

(** [Parse] after a scan that ended with [EOF]. *)
Lemma Parse_finished (text : string) (s : Run) :
  Lex text = Ok (lx s) -> finished text s ->
  Parse text = Ok (reassemble (before_terminal (Items (lx s))), None).
Proof.
  intros E [_ _ _ (pre & Hit & Hseg & _ & _) _].
  unfold Parse, Parse_from, parse. rewrite E. cbn [lex].
  set (t := Item.mk (Position (lx s)) EOF "") in *.
  rewrite Hit, (before_terminal_segments pre t [] Hseg eq_refl).
  rewrite (parse_loop_segments pre Hseg t [] _ _ eq_refl).
  reflexivity.
Qed.

Lemma reassemble_cons (i : Item.t) (its : list Item.t) :
  reassemble (i :: its) = (transform i ++ reassemble its)%string.
Proof. reflexivity. Qed.

(** The loop of [parse] up to an [EOF] item, on any stream: the builder,
    with every item before it transformed, becomes the result. *)
Lemma parse_loop_eof (pre : list Item.t) :
  Forall (fun i => terminal i = false) pre ->
  forall (t : Item.t) (rest : list Item.t) (sb : string) (p : parser),
    Item.Kind t = EOF ->
    parse_loop (pre ++ t :: rest) sb p
    = Ok (mkParser (sb ++ reassemble pre) (lex p) (errItem p)).
Proof.
  induction 1 as [|i pre Hi _ IH]; intros t rest sb p Ht; simpl.
  - rewrite Ht. unfold reassemble. simpl. rewrite app_empty_r. reflexivity.
  - rewrite reassemble_cons. unfold transform, terminal in *.
    destruct (Item.Kind i); try discriminate;
      rewrite (IH t rest _ p Ht); rewrite ?app_assoc_s; reflexivity.
Qed.

(** The loop of [parse] up to an [ItemError] item, on any stream: the item
    is recorded and the builder is dropped. *)
Lemma parse_loop_error (pre : list Item.t) :
  Forall (fun i => terminal i = false) pre ->
  forall (t : Item.t) (rest : list Item.t) (sb : string) (p : parser),
    Item.Kind t = ItemError ->
    parse_loop (pre ++ t :: rest) sb p
    = Ok (mkParser (result p) (lex p) (Some t)).
Proof.
  induction 1 as [|i pre Hi _ IH]; intros t rest sb p Ht; simpl.
  - rewrite Ht. reflexivity.
  - unfold terminal in Hi.
    destruct (Item.Kind i); try discriminate; apply IH; assumption.
Qed.

(** The loop of [parse] over a stream without a terminal item: it ends
    when the channel is closed, and waits for ever when it is not. *)
Lemma parse_loop_drained (its : list Item.t) :
  Forall (fun i => terminal i = false) its ->
  forall (sb : string) (p : parser),
    parse_loop its sb p = if closed (lex p) then Ok p else Blocked.
Proof.
  induction 1 as [|i its Hi _ IH]; intros sb p; simpl; [reflexivity|].
  unfold terminal in Hi.
  destruct (Item.Kind i); try discriminate; apply IH.
Qed.

End Consumer.

(* ------------------------------------------------------------------ *)
(** ** The properties of the specification *)

Section Properties.
Import parser.

(** C1. Segmentation covers the input exactly: for an input of whitespace
    and printable text, the values of the non-terminal items, concatenated
    in emission order, are the input. Whitespace and printable code points
    all differ from U+0000, and only the byte zero decodes to U+0000: the
    theorem asks no more of the input than to hold no byte zero. *)
Theorem segmentation_covers_input (text : string) :
  has_nul text = false ->
  exists l, Lex text = Ok l /\ join (segments (Items l)) = text.
Proof.
  intros Hnul.
  destruct (Lex_spec text)
    as (s & _ & E & [_ _ _ (pre & Hit & Hseg & Hj & _) He]).
  exists (lx s). split; [assumption|].
  set (t := Item.mk (Position (lx s)) EOF "") in *.
  unfold segments. rewrite Hit, (filter_segments pre t Hseg eq_refl), Hj.
  rewrite (He Hnul). apply take_all. unfold len. lia.
Qed.

Lemma segmentation_covers_input_witness :
  has_nul "go rocks" = false
  /\ exists l, Lex "go rocks" = Ok l /\ join (segments (Items l)) = "go rocks".
Proof.
  split; [reflexivity|].
  apply (segmentation_covers_input "go rocks"). reflexivity.
Defined.

(** C2. Scanning the empty string does not yield the [EOF] item alone:
    [lexEOF] first emits the pending segment, empty as it is, as a [Text]
    item. *)
Theorem empty_input_items :
  exists l,
    Lex "" = Ok l
    /\ Items l = [Item.mk 0 Text ""; Item.mk 0 EOF ""].
Proof. vm_compute. eexists. split; reflexivity. Qed.

(** C3. On the no-break space U+00A0 (bytes C2 A0) the scan emits two
    consecutive non-empty [Text] items: [backup] steps back one byte of a
    two-byte code point, and the run of text is cut in the middle. *)
Theorem nbsp_breaks_alternation :
  exists l,
    Lex nbsp = Ok l
    /\ Items l = [Item.mk 0 Text (String (to_byte 0xC2) "");
                  Item.mk 1 Text (String (to_byte 0xA0) "");
                  Item.mk 2 EOF ""]
    /\ alternates (Items l) = false.
Proof. vm_compute. eexists. split; [|split]; reflexivity. Qed.

(** C4. Termination: the scan of every input ends, whatever fuel at least
    that of [Lex] it is given; the channel is then closed, its last item
    is the one terminal item, and every item before it is non-terminal. *)
Theorem scan_terminates (text : string) :
  exists l pre t,
    Lex text = Ok l
    /\ (forall extra, Lex_with (enough text + extra) text = Ok l)
    /\ closed l = true
    /\ Items l = (pre ++ [t])%list
    /\ terminal t = true
    /\ Forall (fun i => terminal i = false) pre.
Proof.
  destruct (Lex_spec text)
    as (s & Er & E & [_ Hc _ (pre & Hit & Hseg & _ & _) _]).
  exists (lx s), pre, (Item.mk (Position (lx s)) EOF "").
  split; [assumption|]. split; [|split; [assumption|split; [assumption|split]]].
  - intros extra. unfold Lex_with. rewrite Lex_run_more, Er. reflexivity.
  - reflexivity.
  - eapply Forall_impl; [|exact Hseg]. apply segment_not_terminal.
Qed.

(** C5. An item other than [EOF] can have an empty value: on the empty
    input [lexEOF] emits the zero-length pending segment as a [Text]
    item. *)
Theorem empty_text_item_emitted :
  exists l i,
    Lex "" = Ok l
    /\ In i (Items l)
    /\ Item.Kind i = Text
    /\ Item.Value i = "".
Proof.
  vm_compute. eexists _, (Item.mk 0 Text "").
  split; [reflexivity|]. split; [left; reflexivity|]. split; reflexivity.
Qed.

(** C6. The sentinel [eof] is the code point U+0000: [next] returns it
    for the byte zero inside the input, with the position advanced and the
    width one, as it returns it at the end of the input. *)
Theorem next_returns_eof_inside_input :
  let l := new_Lexer nul in
  Position l < len (input l)
  /\ exists s',
       next (mkRun l [l]) = Ok (eof, s')
       /\ Position (lx s') = 1
       /\ width (lx s') = 1.
Proof.
  vm_compute. split; [reflexivity|].
  eexists. split; [reflexivity|]. split; reflexivity.
Qed.

(** C7. [Parse] returns either the reassembled output with a nil error or
    the empty output with a descriptive error, never both. On whatever
    stream of items the lexer hands over: at a first terminal item of
    kind [EOF] the outcome is the reassembly of the items before it and a
    nil error; at a first terminal item of kind [ItemError] it is the
    empty output and the error that quotes the value of that item; and no
    outcome has a non-nil error beside a non-empty output. On the lexer
    of any input, [Parse] is in the first case. *)
Theorem Parse_output_or_error :
  (forall (l : Lexer) (pre rest : list Item.t) (t : Item.t),
      Items l = (pre ++ t :: rest)%list ->
      Forall (fun i => terminal i = false) pre ->
      (Item.Kind t = EOF ->
       Parse_from l = Ok (reassemble pre, None))
      /\ (Item.Kind t = ItemError ->
          Parse_from l
          = Ok ("", Some (Errorf "error processing the following %q"
                            (Item.Value t)))))
  /\ (forall (l : Lexer) (out : string) (e : error),
         Parse_from l = Ok (out, Some e) -> out = "")
  /\ (forall text : string,
         exists l,
           Lex text = Ok l
           /\ Parse text = Parse_from l
           /\ Parse text
              = Ok (reassemble (before_terminal (Items l)), None)).
Proof.
  split; [|split].
  - intros l pre rest t Hit Hpre. split; intros Ht.
    + unfold Parse_from, parse. cbn [lex]. rewrite Hit.
      rewrite (parse_loop_eof pre Hpre t rest "" _ Ht). reflexivity.
    + unfold Parse_from, parse. cbn [lex]. rewrite Hit.
      rewrite (parse_loop_error pre Hpre t rest "" _ Ht). reflexivity.
  - intros l out e. unfold Parse_from, parse. cbn [lex].
    destruct (parse_loop _ _ _) as [p'| | |] eqn:E; try discriminate.
    destruct (errItem p'); intros H;
      [injection H as <- _; reflexivity|discriminate H].
  - intros text. destruct (Lex_spec text) as (s & _ & E & F).
    exists (lx s). split; [assumption|]. split.
    + unfold Parse. rewrite E. reflexivity.
    + apply Parse_finished; assumption.
Qed.

(** C8. [Parse("go rocks")] is ["og skcor"] with a nil error. *)
Theorem Parse_go_rocks : Parse "go rocks" = Ok ("og skcor", None).
Proof. vm_compute. reflexivity. Qed.

(** C9. The cursor invariant [start <= position <= len(input)] holds of
    every value the lexer takes during a scan, from the one [Lex]
    allocates on through every assignment made by [next], [backup],
    [ignore] and [emit]. *)
Theorem cursor_invariant (text : string) :
  exists s,
    Lex_run (enough text) text = Ok s
    /\ Forall cursor_inv (visited s)
    /\ cursor_inv (lx s).
Proof.
  destruct (Lex_spec text) as (s & Er & _ & [_ _ Hv _ _]).
  exists s. split; [assumption|].
  assert (Ha : Forall cursor_inv (visited s)).
  { eapply Forall_impl; [|exact Hv]. intros l [_ H]. exact H. }
  split; [assumption|].
  revert Er Ha. unfold Lex_run, scan, bind.
  destruct (scan_loop _ _ _) as [[u s1]| | |]; try discriminate.
  unfold close_Items, bind, get, put.
  destruct (closed (lx s1)); [discriminate|].
  intros [= <-] Ha. simpl in *.
  apply Forall_app in Ha. destruct Ha as [_ Ha].
  inversion Ha; assumption.
Qed.

(** C10. No scan produces an [ItemError] item, and [Parse] returns a nil
    error for every input. *)
Theorem no_error_item (text : string) :
  exists l out,
    Lex text = Ok l
    /\ Forall (fun i => Item.Kind i <> ItemError) (Items l)
    /\ Parse text = Ok (out, None).
Proof.
  destruct (Lex_spec text) as (s & _ & E & F).
  exists (lx s), (reassemble (before_terminal (Items (lx s)))).
  split; [assumption|]. split; [|apply Parse_finished; assumption].
  destruct F as [_ _ _ (pre & Hit & Hseg & _ & _) _].
  rewrite Hit. apply Forall_app. split.
  - eapply Forall_impl; [|exact Hseg].
    intros i Hi. unfold segment in Hi.
    destruct (Item.Kind i); simpl in Hi; congruence.
  - constructor; [simpl; congruence|constructor].
Qed.

End Properties.

(* ------------------------------------------------------------------ *)
(** ** Further properties and examples *)

Section Complements.
Import parser.

(** Without an empty value among the segments, items that do not clash
    are not two segments of one kind either. *)
Lemma alternates_strict (its : list Item.t) :
  Forall (fun i => terminal i = false -> Item.Value i <> "") its ->
  alternates its = true ->
  strictly_alternates its = true.
Proof.
  induction 1 as [|i its Hi Hits IH]; [reflexivity|].
  intros A. simpl in A. apply andb_true_iff in A. destruct A as [A1 A2].
  simpl. rewrite (IH A2), andb_true_r.
  destruct its as [|j its]; [reflexivity|].
  apply Forall_inv in Hits.
  unfold same_segment. unfold clash in A1.
  destruct (ItemKind_eqb (Item.Kind i) (Item.Kind j)) eqn:Ek;
    [|rewrite andb_false_r; reflexivity].
  assert (Hk : Item.Kind j = Item.Kind i)
    by (destruct (Item.Kind i), (Item.Kind j); simpl in Ek;
        congruence).
  unfold terminal in *. rewrite Hk in *.
  destruct (Item.Kind i); try reflexivity; exfalso;
    specialize (Hi eq_refl); specialize (Hits eq_refl);
    apply String.eqb_neq in Hi; apply String.eqb_neq in Hits;
    rewrite Hi, Hits in A1; discriminate A1.
Qed.

(** On ASCII input no two consecutive items clash. *)
Lemma Lex_run_alternates (text : string) (s : Run) :
  is_ascii text = true ->
  Lex_run (enough text) text = Ok s ->
  alternates (Items (lx s)) = true.
Proof.
  intros Ha. unfold Lex_run, scan, bind.
  destruct (scan_loop _ _ _) as [[[] s1]| | |] eqn:E1; try discriminate.
  apply (scan_loop_alt text Ha) in E1.
  - unfold close_Items, bind, get, put.
    destruct (closed (lx s1)); [discriminate|].
    intros [= <-]. exact E1.
  - apply good_new.
  - apply room_new.
  - split; [reflexivity|]. intros i Hi. discriminate Hi.
  - apply measure_new.
Qed.

(** X5. On ASCII input the segments alternate: no two consecutive items
    are both [Text] or both [WhiteSpace]. There, stepping back one byte
    is stepping back one code point. *)
Theorem ascii_segments_alternate (text : string) :
  is_ascii text = true ->
  exists l, Lex text = Ok l /\ strictly_alternates (Items l) = true.
Proof.
  intros Ha.
  destruct (string_dec text "") as [->|Hne].
  { vm_compute. eexists. split; reflexivity. }
  destruct (Lex_spec text) as (s & Er & E & F).
  exists (lx s). split; [assumption|].
  apply alternates_strict; [|apply (Lex_run_alternates text); assumption].
  destruct F as [_ _ _ (pre & Hit & _ & _ & Hv) _].
  rewrite Hit. apply Forall_app. split.
  - specialize (Hv Hne). eapply Forall_impl; [|exact Hv].
    intros i Hi _. exact Hi.
  - constructor; [|constructor]. intros Ht. discriminate Ht.
Qed.

(** X4. Unless the input is empty, every item but [EOF] has a non-empty
    value: [lexEOF] then always has a pending segment to emit. *)
Theorem nonempty_input_values (text : string) :
  text <> "" ->
  exists l,
    Lex text = Ok l
    /\ forall i, In i (Items l) ->
         Item.Kind i <> EOF -> Item.Value i <> "".
Proof.
  intros Hne.
  destruct (Lex_spec text)
    as (s & _ & E & [_ _ _ (pre & Hit & _ & _ & Hv) _]).
  exists (lx s). split; [assumption|].
  intros i Hin Hk. rewrite Hit in Hin. apply in_app_or in Hin.
  destruct Hin as [Hin|[<-|[]]].
  - specialize (Hv Hne). rewrite Forall_forall in Hv. auto.
  - contradiction Hk. reflexivity.
Qed.

(** A byte zero inside the input ends the scan: what follows it is never
    emitted. *)
Example scan_stops_at_nul :
  exists l,
    Lex a_nul_b = Ok l
    /\ Items l = [Item.mk 0 Text ("a" ++ nul); Item.mk 2 EOF ""]
    /\ Position l = 2
    /\ len (input l) = 3.
Proof. vm_compute. eexists. repeat split; reflexivity. Qed.

(** [Reverse] reverses code points, not bytes. *)
Example Reverse_code_points : Reverse hello_acute = olleh_acute.
Proof. vm_compute. reflexivity. Qed.

(** Pure whitespace input. *)
Example Lex_spaces :
  exists l,
    Lex "   " = Ok l
    /\ Items l = [Item.mk 0 WhiteSpace "   "; Item.mk 3 EOF ""].
Proof. vm_compute. eexists. split; reflexivity. Qed.

(** Leading and trailing whitespace is preserved. *)
Example Parse_hi : Parse "  hi  " = Ok ("  ih  ", None).
Proof. vm_compute. reflexivity. Qed.

(** A run of spaces stays one segment. *)
Example Lex_a_b :
  exists l,
    Lex "a  b" = Ok l
    /\ Items l = [Item.mk 0 Text "a"; Item.mk 1 WhiteSpace "  ";
                  Item.mk 3 Text "b"; Item.mk 4 EOF ""].
Proof. vm_compute. eexists. split; reflexivity. Qed.

Example Parse_a_b : Parse "a  b" = Ok ("a  b", None).
Proof. vm_compute. reflexivity. Qed.

(** The cursors [(start, Position)] a scan of ["a "] goes through. *)
Example visited_a_space :
  exists s,
    Lex_run (enough "a ") "a " = Ok s
    /\ map (fun l => (start l, Position l)) (visited s)
       = [(0, 0); (0, 0); (0, 1); (0, 1); (0, 2); (0, 1); (0, 1); (1, 1);
          (1, 1); (1, 2); (1, 2); (1, 2); (2, 2); (2, 2); (2, 2); (2, 2)].
Proof. vm_compute. eexists. split; reflexivity. Qed.

End Complements.

(* ------------------------------------------------------------------ *)
(** ** The arithmetic of UTF-8 *)

Section Utf8Arithmetic.
Import utf8.

Lemma land_shiftl_low (a b k : Z) :
  0 <= k -> 0 <= b < 2 ^ k -> Z.land (Z.shiftl a k) b = 0.
Proof.
  intros Hk Hb. apply Z.bits_inj'. intros n Hn.
  rewrite Z.land_spec, Z.bits_0.
  destruct (Z.lt_ge_cases n k) as [L|L].
  - rewrite Z.shiftl_spec_low by assumption. reflexivity.
  - destruct (Z.eq_dec b 0) as [->|Hz].
    + rewrite Z.bits_0. apply andb_false_r.
    + rewrite (Z.bits_above_log2 b n); [apply andb_false_r|lia|].
      apply Z.log2_lt_pow2; [lia|].
      eapply Z.lt_le_trans; [apply Hb|]. apply Z.pow_le_mono_r; lia.
Qed.

(** Bit fields that do not overlap add up. *)
Lemma lor_add_low (a b k : Z) :
  0 <= k -> a mod 2 ^ k = 0 -> 0 <= b < 2 ^ k -> Z.lor a b = a + b.
Proof.
  intros Hk Ha Hb.
  assert (E : a = Z.shiftl (a / 2 ^ k) k).
  { rewrite Z.shiftl_mul_pow2 by assumption.
    pose proof (Z.div_mod a (2 ^ k)) as D. lia. }
  rewrite E at 1.
  assert (H0 := land_shiftl_low (a / 2 ^ k) b k Hk Hb).
  rewrite <- Z.lxor_lor by assumption.
  rewrite <- Z.add_nocarry_lxor by assumption.
  rewrite <- E. reflexivity.
Qed.

Lemma land_maskx (a : Z) : Z.land a maskx = a mod 64.
Proof. change maskx with (Z.ones 6). rewrite Z.land_ones by lia. reflexivity. Qed.

Lemma land_mask2 (a : Z) : Z.land a mask2 = a mod 32.
Proof. change mask2 with (Z.ones 5). rewrite Z.land_ones by lia. reflexivity. Qed.

Lemma land_mask3 (a : Z) : Z.land a mask3 = a mod 16.
Proof. change mask3 with (Z.ones 4). rewrite Z.land_ones by lia. reflexivity. Qed.

Lemma land_mask4 (a : Z) : Z.land a mask4 = a mod 8.
Proof. change mask4 with (Z.ones 3). rewrite Z.land_ones by lia. reflexivity. Qed.

Lemma rune2_arith (b0 b1 : Z) :
  Z.lor (Z.shiftl (Z.land b0 mask2) 6) (Z.land b1 maskx)
  = b0 mod 32 * 64 + b1 mod 64.
Proof.
  rewrite land_mask2, land_maskx, Z.shiftl_mul_pow2 by lia.
  apply (lor_add_low _ _ 6); [lia| |].
  - change (2 ^ 6) with 64. apply Z.mod_mul. lia.
  - change (2 ^ 6) with 64. apply Z.mod_pos_bound. lia.
Qed.

Lemma rune3_arith (b0 b1 b2 : Z) :
  Z.lor (Z.lor (Z.shiftl (Z.land b0 mask3) 12)
               (Z.shiftl (Z.land b1 maskx) 6))
        (Z.land b2 maskx)
  = b0 mod 16 * 4096 + b1 mod 64 * 64 + b2 mod 64.
Proof.
  rewrite land_mask3, !land_maskx, !Z.shiftl_mul_pow2 by lia.
  change (2 ^ 12) with 4096. change (2 ^ 6) with 64.
  pose proof (Z.mod_pos_bound b1 64 ltac:(lia)).
  pose proof (Z.mod_pos_bound b2 64 ltac:(lia)).
  rewrite (lor_add_low (b0 mod 16 * 4096) _ 12); [|lia| |].
  - apply (lor_add_low _ _ 6); [lia| |assumption].
    change (2 ^ 6) with 64.
    replace (b0 mod 16 * 4096 + b1 mod 64 * 64)
      with ((b0 mod 16 * 64 + b1 mod 64) * 64) by lia.
    apply Z.mod_mul. lia.
  - change (2 ^ 12) with 4096. apply Z.mod_mul. lia.
  - change (2 ^ 12) with 4096. lia.
Qed.

Lemma rune4_arith (b0 b1 b2 b3 : Z) :
  Z.lor (Z.lor (Z.lor (Z.shiftl (Z.land b0 mask4) 18)
                      (Z.shiftl (Z.land b1 maskx) 12))
               (Z.shiftl (Z.land b2 maskx) 6))
        (Z.land b3 maskx)
  = b0 mod 8 * 262144 + b1 mod 64 * 4096 + b2 mod 64 * 64 + b3 mod 64.
Proof.
  rewrite land_mask4, !land_maskx, !Z.shiftl_mul_pow2 by lia.
  change (2 ^ 18) with 262144. change (2 ^ 12) with 4096.
  change (2 ^ 6) with 64.
  pose proof (Z.mod_pos_bound b1 64 ltac:(lia)).
  pose proof (Z.mod_pos_bound b2 64 ltac:(lia)).
  pose proof (Z.mod_pos_bound b3 64 ltac:(lia)).
  rewrite (lor_add_low (b0 mod 8 * 262144) _ 18); [|lia| |].
  - rewrite (lor_add_low _ (b2 mod 64 * 64) 12); [|lia| |].
    + apply (lor_add_low _ _ 6); [lia| |assumption].
      change (2 ^ 6) with 64.
      replace (b0 mod 8 * 262144 + b1 mod 64 * 4096 + b2 mod 64 * 64)
        with ((b0 mod 8 * 4096 + b1 mod 64 * 64 + b2 mod 64) * 64) by lia.
      apply Z.mod_mul. lia.
    + change (2 ^ 12) with 4096.
      replace (b0 mod 8 * 262144 + b1 mod 64 * 4096)
        with ((b0 mod 8 * 64 + b1 mod 64) * 4096) by lia.
      apply Z.mod_mul. lia.
    + change (2 ^ 12) with 4096. lia.
  - change (2 ^ 18) with 262144. apply Z.mod_mul. lia.
  - change (2 ^ 18) with 262144. lia.
Qed.

End Utf8Arithmetic.

Section DecodeArith.
Import utf8.

Ltac split_cmp :=
  repeat (match goal with
          | |- context [?a =? ?b] =>
              destruct (Z.eqb_spec a b); try (exfalso; lia)
          | |- context [?a <? ?b] =>
              destruct (Z.ltb_spec a b); try (exfalso; lia)
          | |- context [?a <=? ?b] =>
              destruct (Z.leb_spec a b); try (exfalso; lia)
          end; cbv beta iota).

Lemma decode_arith (s : string) :
  DecodeRuneInString s
  = decode_spec (len s) (byte_at s 0) (byte_at s 1) (byte_at s 2)
      (byte_at s 3).
Proof.
  unfold DecodeRuneInString, decode_spec. cbv zeta.
  generalize (len s) (byte_at s 0) (byte_at s 1) (byte_at s 2) (byte_at s 3).
  intros n b0 b1 b2 b3.
  destruct (Z.ltb_spec n 1); [reflexivity|].
  unfold first.
  destruct (Z.ltb_spec b0 128).
  { change (as_ <=? as_) with true. cbv iota.
    change (Z.odd as_) with false. cbv iota.
    change (Z.lnot 0) with (-1).
    rewrite Z.land_m1_r, Z.land_0_r, Z.lor_0_r. reflexivity. }
  destruct (Z.ltb_spec b0 194).
  { change (as_ <=? xx) with true. cbv iota.
    change (Z.odd xx) with true. cbv iota.
    change (Z.lnot (-1)) with 0.
    rewrite Z.land_0_r, Z.land_m1_r, Z.lor_0_l. reflexivity. }
  destruct (Z.ltb_spec b0 224).
  { change (as_ <=? s1) with false. cbv iota.
    change (Z.land s1 7) with 2.
    change (acceptRanges (Z.shiftr s1 4)) with (locb, hicb).
    cbn [fst snd]. unfold locb, hicb.
    change (2 <=? 2) with true. cbv iota.
    rewrite rune2_arith.
    split_cmp; cbn [andb orb]; cbv iota; reflexivity. }
  destruct (Z.eqb_spec b0 224).
  { change (as_ <=? s2) with false. cbv iota.
    change (Z.land s2 7) with 3.
    change (acceptRanges (Z.shiftr s2 4)) with (160, hicb).
    cbn [fst snd]. unfold locb, hicb.
    change (3 <=? 2) with false. change (3 <=? 3) with true. cbv iota.
    rewrite rune3_arith.
    split_cmp; cbn [andb orb]; cbv iota; reflexivity. }
  destruct (Z.ltb_spec b0 237).
  { change (as_ <=? s3) with false. cbv iota.
    change (Z.land s3 7) with 3.
    change (acceptRanges (Z.shiftr s3 4)) with (locb, hicb).
    cbn [fst snd]. unfold locb, hicb.
    change (3 <=? 2) with false. change (3 <=? 3) with true. cbv iota.
    rewrite rune3_arith.
    split_cmp; cbn [andb orb]; cbv iota; reflexivity. }
  destruct (Z.eqb_spec b0 237).
  { change (as_ <=? s4) with false. cbv iota.
    change (Z.land s4 7) with 3.
    change (acceptRanges (Z.shiftr s4 4)) with (locb, 159).
    cbn [fst snd]. unfold locb, hicb.
    change (3 <=? 2) with false. change (3 <=? 3) with true. cbv iota.
    rewrite rune3_arith.
    split_cmp; cbn [andb orb]; cbv iota; reflexivity. }
  destruct (Z.ltb_spec b0 240).
  { change (as_ <=? s3) with false. cbv iota.
    change (Z.land s3 7) with 3.
    change (acceptRanges (Z.shiftr s3 4)) with (locb, hicb).
    cbn [fst snd]. unfold locb, hicb.
    change (3 <=? 2) with false. change (3 <=? 3) with true. cbv iota.
    rewrite rune3_arith.
    split_cmp; cbn [andb orb]; cbv iota; reflexivity. }
  destruct (Z.eqb_spec b0 240).
  { change (as_ <=? s5) with false. cbv iota.
    change (Z.land s5 7) with 4.
    change (acceptRanges (Z.shiftr s5 4)) with (144, hicb).
    cbn [fst snd]. unfold locb, hicb.
    change (4 <=? 2) with false. change (4 <=? 3) with false. cbv iota.
    rewrite rune4_arith.
    split_cmp; cbn [andb orb]; cbv iota; reflexivity. }
  destruct (Z.ltb_spec b0 244).
  { change (as_ <=? s6) with false. cbv iota.
    change (Z.land s6 7) with 4.
    change (acceptRanges (Z.shiftr s6 4)) with (locb, hicb).
    cbn [fst snd]. unfold locb, hicb.
    change (4 <=? 2) with false. change (4 <=? 3) with false. cbv iota.
    rewrite rune4_arith.
    split_cmp; cbn [andb orb]; cbv iota; reflexivity. }
  destruct (Z.eqb_spec b0 244).
  { change (as_ <=? s7) with false. cbv iota.
    change (Z.land s7 7) with 4.
    change (acceptRanges (Z.shiftr s7 4)) with (locb, 143).
    cbn [fst snd]. unfold locb, hicb.
    change (4 <=? 2) with false. change (4 <=? 3) with false. cbv iota.
    rewrite rune4_arith.
    split_cmp; cbn [andb orb]; cbv iota; reflexivity. }
  change (as_ <=? xx) with true. cbv iota.
  change (Z.odd xx) with true. cbv iota.
  change (Z.lnot (-1)) with 0.
  rewrite Z.land_0_r, Z.land_m1_r, Z.lor_0_l.
  split_cmp; reflexivity.
Qed.

End DecodeArith.

(* ------------------------------------------------------------------ *)
(** ** Invariants of a scan, in general

    A property [J] of the lexer that survives the three things a handler
    does (advance over a code point of its class, hand over at a code
    point of the other class, finish at the end of the input) holds up to
    the end of the scan, where it has become [Jfin]. *)

Section ScanInvariant.

Variable inp : string.
Variable J : stateFn -> Lexer -> Prop.
Variable Jfin : Lexer -> Prop.

Hypothesis J_advance :
  forall f l l',
    input l = inp -> cursor_ok l -> Position l < len inp ->
    fst (peek l) <> eof -> boundary_of f (fst (peek l)) = false ->
    input l' = inp -> start l' = start l -> Items l' = Items l ->
    Position l' = Position l + snd (peek l) ->
    J f l -> J f l'.

Hypothesis J_handover :
  forall f l l',
    input l = inp -> cursor_ok l -> Position l < len inp ->
    fst (peek l) <> eof -> boundary_of f (fst (peek l)) = true ->
    input l' = inp ->
    Position l' = Position l + snd (peek l) - 1 ->
    (Position l' <= start l /\ start l' = start l /\ Items l' = Items l)
    \/ (start l < Position l' /\ start l' = Position l'
        /\ Items l' = (Items l ++ [Item.mk (start l) (kind_of f)
                                     (substr inp (start l) (Position l'))])%list) ->
    J f l -> J (other f) l'.

Hypothesis J_finish :
  forall f l l',
    input l = inp -> cursor_ok l ->
    (Position l' = Position l /\ Position l = len inp)
    \/ (Position l < len inp /\ fst (peek l) = eof
        /\ Position l' = Position l + snd (peek l)) ->
    input l' = inp -> start l' = Position l' ->
    Items l' = (Items l ++ [Item.mk (start l) (kind_of f)
                              (substr inp (start l) (Position l'));
                            Item.mk (Position l') EOF ""])%list ->
    J f l -> Jfin l'.

Hypothesis Jfin_close : forall l, Jfin l -> Jfin (set_closed l true).

(** What [emit] leaves behind. *)
Lemma emit_item (k : ItemKind) (s s' : Run) :
  good inp s ->
  emit k s = Ok (tt, s') ->
  input (lx s') = inp
  /\ Position (lx s') = Position (lx s)
  /\ start (lx s') = Position (lx s)
  /\ closed (lx s') = false
  /\ cursor_ok (lx s')
  /\ Items (lx s')
     = (Items (lx s)
        ++ [Item.mk (start (lx s)) k
              (substr inp (start (lx s)) (Position (lx s)))])%list.
Proof.
  intros [Hi Hw Hv Ho Hc Hk Hne] E.
  rewrite (emit_eq k s Hw Ho) in E. cbv zeta in E.
  injection E as <-. simpl. rewrite Hi.
  destruct Hw as [H0 [H1 H2]].
  repeat split; try assumption; try reflexivity; simpl; lia.
Qed.

(** What [lexEOF] leaves behind. *)
Lemma lexEOF_items (k : ItemKind) (s : Run) (out : option stateFn)
  (s' : Run) :
  good inp s ->
  lexEOF k s = Ok (out, s') ->
  out = None
  /\ input (lx s') = inp
  /\ Position (lx s') = Position (lx s)
  /\ start (lx s') = Position (lx s)
  /\ Items (lx s')
     = (Items (lx s)
        ++ [Item.mk (start (lx s)) k
              (substr inp (start (lx s)) (Position (lx s)));
            Item.mk (Position (lx s)) EOF ""])%list.
Proof.
  intros G E.
  pose proof G as [Hi [H0 [H1 H2]] Hv Ho Hc Hks Hne].
  unfold lexEOF, bind at 1 2, get in E.
  rewrite Z.gtb_ltb in E.
  destruct (Z.ltb_spec (Position (lx s)) (start (lx s))) as [L|L]; [lia|].
  unfold ret at 1 in E. unfold bind at 1 in E.
  destruct (emit k s) as [[[] s1]| | |] eqn:E1; try discriminate.
  destruct (emit_item k s s1 G E1) as (Hi1 & P1 & S1 & Ho1 & Hw1 & I1).
  unfold bind in E. rewrite (emit_eq EOF s1 Hw1 Ho1) in E.
  cbv zeta in E. unfold ret in E. injection E as <- <-.
  simpl. rewrite I1, S1, P1, Hi1, <- app_assoc.
  repeat split; try reflexivity.
  replace (Z.to_nat (Position (lx s) - Position (lx s))) with 0%nat by lia.
  destruct (drop _ _); reflexivity.
Qed.

Lemma lexRun_invariant (f : stateFn) (fuel : nat) :
  forall (s : Run) (out : option stateFn) (s' : Run),
    good inp s ->
    room inp (lx s) ->
    J f (lx s) ->
    lexRun (kind_of f) (boundary_of f) (other f) fuel s = Ok (out, s') ->
    match out with
    | None => Jfin (lx s')
    | Some f' => J f' (lx s')
    end.
Proof.
  induction fuel as [|fuel IH]; intros s out s' G R HJ Hrun;
    [discriminate|].
  simpl lexRun in Hrun.
  destruct (next_spec inp s G) as (r & s1 & E1 & G1 & S1 & I1 & Hcase).
  unfold bind at 1 in Hrun. rewrite E1 in Hrun.
  pose proof G as [Hi Hw _ _ _ _ _].
  pose proof Hw as [H0 [H1 H2]].
  pose proof G1 as [Hi1 [A0 [A1 A2]] _ _ _ _ _].
  rewrite Hi in H2. rewrite Hi1 in A2.
  assert (Heof : (Position (lx s1) = Position (lx s)
                  /\ Position (lx s) = len inp)
                 \/ (Position (lx s) < len inp /\ fst (peek (lx s)) = eof
                     /\ Position (lx s1)
                        = Position (lx s) + snd (peek (lx s))) ->
                 lexEOF (kind_of f) s1 = Ok (out, s') ->
                 match out with
                 | None => Jfin (lx s')
                 | Some f' => J f' (lx s')
                 end).
  { intros Hq Hrun'.
    destruct (lexEOF_items _ s1 out s' G1 Hrun')
      as (-> & Hi' & P' & S' & I').
    apply (J_finish f (lx s) (lx s')); try assumption.
    - rewrite P'. exact Hq.
    - congruence.
    - rewrite I', I1, S1, P'. reflexivity. }
  destruct Hcase as [(Hr & P1 & Pend) | (Plt & Hr & W & P1)].
  - subst r. rewrite Z.eqb_refl in Hrun.
    apply Heof; [left; split; assumption|assumption].
  - destruct (Z.eqb_spec r eof) as [Ez|Ez].
    + apply Heof; [|assumption]. right. repeat split; congruence.
    + clear Heof. rewrite Hr in Ez.
      destruct (boundary_of f r) eqn:Eb; rewrite Hr in Eb.
      * destruct (backup_spec inp s1 G1 ltac:(lia))
          as (s2 & E2 & G2 & S2 & I2 & P2).
        unfold bind at 1 in Hrun. rewrite E2 in Hrun.
        unfold bind at 1, get in Hrun.
        pose proof G2 as [Hi2 _ _ _ _ _ _].
        rewrite Z.gtb_ltb in Hrun.
        destruct (Z.ltb_spec (start (lx s2)) (Position (lx s2))) as [E|E].
        -- unfold bind, ret in Hrun.
           destruct (emit (kind_of f) s2) as [[[] s3]| | |] eqn:E3;
             try discriminate.
           injection Hrun as <- <-.
           destruct (emit_item _ s2 s3 G2 E3)
             as (Hi3 & P3 & S3 & _ & _ & I3).
           apply (J_handover f (lx s) (lx s3)); try assumption.
           ++ lia.
           ++ right. split; [lia|]. split; [lia|].
              rewrite I3, I2, I1, S2, S1, P3. reflexivity.
        -- unfold bind, ret in Hrun. injection Hrun as <- <-.
           apply (J_handover f (lx s) (lx s2)); try assumption.
           ++ lia.
           ++ left. split; [lia|]. split; congruence.
      * apply (IH s1 out s' G1); [intros _; left; lia| |assumption].
        apply (J_advance f (lx s) (lx s1)); assumption.
Qed.

Lemma call_invariant (f : stateFn) (fuel : nat) (s : Run)
  (out : option stateFn) (s' : Run) :
  good inp s ->
  room inp (lx s) ->
  J f (lx s) ->
  call fuel f s = Ok (out, s') ->
  match out with
  | None => Jfin (lx s')
  | Some f' => J f' (lx s')
  end.
Proof.
  intros G R HJ. destruct f; simpl call.
  - rewrite lexText_lexRun.
    apply (lexRun_invariant fn_lexText); assumption.
  - rewrite lexWhitespace_lexRun.
    apply (lexRun_invariant fn_lexWhitespace); assumption.
Qed.

Lemma scan_loop_invariant (fuel : nat) :
  forall (f : stateFn) (s s' : Run),
    good inp s ->
    room inp (lx s) ->
    J f (lx s) ->
    (measure f (lx s) < fuel)%nat ->
    scan_loop fuel (Some f) s = Ok (tt, s') ->
    Jfin (lx s').
Proof.
  induction fuel as [|fuel IH]; intros f s s' G R HJ Hm Hrun; [lia|].
  simpl scan_loop in Hrun.
  assert (Hfuel : (Z.to_nat (len inp - Position (lx s)) < S fuel)%nat).
  { pose proof G as [Hi _ _ _ _ _ _]. unfold measure in Hm.
    rewrite Hi in Hm. lia. }
  destruct (call_spec inp f (S fuel) s G R Hfuel) as (out & s1 & E & Post).
  unfold bind in Hrun. rewrite E in Hrun.
  pose proof (call_invariant f (S fuel) s out s1 G R HJ E) as J1.
  destruct out as [f'|].
  - destruct Post as (G1 & R1 & Hlt).
    apply (IH f' s1 s' G1 R1 J1); [lia|assumption].
  - destruct fuel; simpl in Hrun; unfold ret in Hrun;
      injection Hrun as <-; assumption.
Qed.

(** The invariant at the end of [Lex]. *)
Lemma Lex_invariant :
  J fn_lexText (new_Lexer inp) ->
  exists l, Lex inp = Ok l /\ Jfin l.
Proof.
  intros J0.
  destruct (Lex_spec inp) as (s & Er & E & _).
  exists (lx s). split; [assumption|].
  revert Er. unfold Lex_run, scan, bind.
  destruct (scan_loop _ _ _) as [[[] s1]| | |] eqn:E1; try discriminate.
  apply scan_loop_invariant in E1.
  - unfold close_Items, bind, get, put.
    destruct (closed (lx s1)); [discriminate|].
    intros [= <-]. simpl. apply Jfin_close. exact E1.
  - apply good_new.
  - apply room_new.
  - exact J0.
  - apply measure_new.
Qed.

End ScanInvariant.

(* ------------------------------------------------------------------ *)
(** ** The items tile the input *)

Section Tiling.

Lemma len_take (n : nat) (s : string) :
  (n <= String.length s)%nat -> len (take n s) = Z.of_nat n.
Proof. intros H. unfold len. rewrite length_take. lia. Qed.

Lemma len_substr (inp : string) (a b : Z) :
  0 <= a <= b -> b <= len inp -> len (substr inp a b) = b - a.
Proof.
  intros Ha Hb. unfold substr. rewrite len_take.
  - lia.
  - rewrite length_drop. unfold len in Hb. lia.
Qed.

Lemma substr_empty (inp : string) (a : Z) : substr inp a a = "".
Proof.
  unfold substr. replace (Z.to_nat (a - a)) with 0%nat by lia.
  destruct (drop _ _); reflexivity.
Qed.

Lemma tiled_snoc (inp : string) (k : ItemKind) (its : list Item.t) :
  forall a b c,
    tiled inp a its b ->
    0 <= b <= c -> c <= len inp ->
    tiled inp a (its ++ [Item.mk b k (substr inp b c)]) c.
Proof.
  induction its as [|i its IH]; intros a b c Ht Hb Hc; simpl in *.
  - subst b. rewrite len_substr by assumption.
    replace (a + (c - a)) with c by lia.
    repeat split; try reflexivity; lia.
  - destruct Ht as (Hp & Hv & Hl & Ht).
    repeat split; try assumption. apply IH; assumption.
Qed.

(** X1. From the first item at offset 0 to the last, the items of a scan
    tile the input: every item holds the bytes of the input from its
    [Position] on, and the next item starts where it ends. The last item
    is the [EOF] item, with an empty value, at the final position. *)
Theorem items_tile_input (text : string) :
  exists l pre,
    Lex text = Ok l
    /\ tiled text 0 (Items l) (Position l)
    /\ Items l = (pre ++ [Item.mk (Position l) EOF ""])%list.
Proof.
  assert (H : exists l,
             Lex text = Ok l
             /\ tiled text 0 (Items l) (Position l)
             /\ exists pre,
                  Items l = (pre ++ [Item.mk (Position l) EOF ""])%list).
  2: { destruct H as (l & E & Ht & pre & Hp). exists l, pre. tauto. }
  apply (Lex_invariant text
           (fun _ l => tiled text 0 (Items l) (start l))
           (fun l => tiled text 0 (Items l) (Position l)
                     /\ exists pre,
                          Items l
                          = (pre ++ [Item.mk (Position l) EOF ""])%list)).
  - intros f l l' _ _ _ _ _ _ Hs Hi _ HJ. rewrite Hs, Hi. exact HJ.
  - intros f l l' Hin [H0 [H1 H2]] Hlt _ _ _ Hp Hcase HJ.
    pose proof (peek_width l ltac:(rewrite Hin; lia)) as W.
    rewrite Hin in W.
    destruct Hcase as [(_ & Hs & Hi) | (Hlt' & Hs & Hi)].
    + rewrite Hs, Hi. exact HJ.
    + rewrite Hs, Hi. apply tiled_snoc; [assumption|lia|lia].
  - intros f l l' Hin [H0 [H1 H2]] Hq _ _ Hi HJ.
    rewrite Hin in H2.
    assert (Hle : Position l <= Position l' <= len text).
    { destruct Hq as [(-> & _) | (Hlt & _ & ->)]; [lia|].
      pose proof (peek_width l ltac:(rewrite Hin; lia)) as W.
      rewrite Hin in W. lia. }
    rewrite Hi.
    change (Items l ++ [Item.mk (start l) (kind_of f)
                          (substr text (start l) (Position l'));
                        Item.mk (Position l') EOF ""])%list
      with (Items l ++ [Item.mk (start l) (kind_of f)
                          (substr text (start l) (Position l'))]
                    ++ [Item.mk (Position l') EOF ""])%list.
    rewrite app_assoc.
    split; [|eexists; reflexivity].
    replace (Item.mk (Position l') EOF "")
      with (Item.mk (Position l') EOF
              (substr text (Position l') (Position l')))
      by (rewrite substr_empty; reflexivity).
    apply tiled_snoc; [|lia|lia].
    apply tiled_snoc; [assumption|lia|lia].
  - intros l H. exact H.
  - reflexivity.
Qed.

End Tiling.

(* ------------------------------------------------------------------ *)
(** ** The consumer on any stream of items *)

Section ConsumerStreams.
Import parser.

(** X9. [parse] publishes its output at the first [EOF] item: the result is
    the reassembly of the items before it, items of the reserved kinds
    adding nothing, and whatever follows the [EOF] item is not read. *)
Theorem parse_publishes_at_EOF (p : parser) (pre : list Item.t)
  (t : Item.t) (rest : list Item.t) :
  Items (lex p) = (pre ++ t :: rest)%list ->
  Forall (fun i => terminal i = false) pre ->
  Item.Kind t = EOF ->
  parse p = Ok (mkParser (reassemble pre) (lex p) (errItem p)).
Proof.
  intros Hit Hpre Ht. unfold parse. rewrite Hit.
  apply (parse_loop_eof pre Hpre t rest "" p Ht).
Qed.

(** X10. [parse] stops at the first [ItemError] item: it records the item and
    leaves the result as it was, so that what the builder had gathered is
    dropped. *)
Theorem parse_stops_at_ItemError (p : parser) (pre : list Item.t)
  (t : Item.t) (rest : list Item.t) :
  Items (lex p) = (pre ++ t :: rest)%list ->
  Forall (fun i => terminal i = false) pre ->
  Item.Kind t = ItemError ->
  parse p = Ok (mkParser (result p) (lex p) (Some t)).
Proof.
  intros Hit Hpre Ht. unfold parse. rewrite Hit.
  apply (parse_loop_error pre Hpre t rest "" p Ht).
Qed.

(** X11. When the channel is closed with no terminal item sent, [parse]
    returns without publishing anything: the parser is unchanged. *)
Theorem parse_without_terminal (p : parser) :
  Forall (fun i => terminal i = false) (Items (lex p)) ->
  closed (lex p) = true ->
  parse p = Ok p.
Proof.
  intros H Hc. unfold parse.
  rewrite (parse_loop_drained _ H), Hc. reflexivity.
Qed.

(** On a channel that is still open and holds no terminal item, [parse]
    does not return: its [range] waits for an item that never comes. *)
Lemma parse_waits_on_open_channel (p : parser) :
  Forall (fun i => terminal i = false) (Items (lex p)) ->
  closed (lex p) = false ->
  parse p = Blocked.
Proof.
  intros H Hc. unfold parse.
  rewrite (parse_loop_drained _ H), Hc. reflexivity.
Qed.

(** X8. [errorf] on an open channel sends one [ItemError] item with the
    message and returns the [nil] state; a consumer of the stream then
    reports that item and publishes no output. *)
Theorem errorf_reported (msg : string) (l : Lexer) (v : list Lexer) :
  closed l = false ->
  Forall (fun i => terminal i = false) (Items l) ->
  exists s',
    errorf msg (mkRun l v) = Ok (None, s')
    /\ Items (lx s') = (Items l ++ [Item.mk 0 ItemError msg])%list
    /\ parse (mkParser "" (lx s') None)
       = Ok (mkParser "" (lx s') (Some (Item.mk 0 ItemError msg))).
Proof.
  intros Ho Hit.
  unfold errorf, send, bind, get. simpl. rewrite Ho. simpl.
  eexists. split; [reflexivity|]. simpl. split; [reflexivity|].
  unfold parse. cbn [lex Items].
  apply (parse_loop_error (Items l) Hit (Item.mk 0 ItemError msg) []).
  reflexivity.
Qed.

End ConsumerStreams.

(* ------------------------------------------------------------------ *)
(** ** Stepping forward and back *)

Section ForwardBack.

(** X7. [next] followed by [backup], inside the input: the position ends one
    byte short of the end of the code point read, never before where it
    was and never at the end of the input; it is back where it was exactly
    when the code point is one byte wide. *)
Theorem next_then_backup (s : Run) :
  cursor_ok (lx s) ->
  Position (lx s) < len (input (lx s)) ->
  exists s',
    bind next (fun r => bind backup (fun _ => ret r)) s
    = Ok (fst (peek (lx s)), s')
    /\ width (lx s') = snd (peek (lx s))
    /\ Position (lx s') = Position (lx s) + width (lx s') - 1
    /\ Position (lx s) <= Position (lx s') < len (input (lx s))
    /\ (Position (lx s') = Position (lx s) <-> width (lx s') = 1).
Proof.
  intros [H0 [H1 H2]] Hlt.
  assert (Hp : 0 <= Position (lx s) < len (input (lx s))) by lia.
  pose proof (peek_width _ Hp) as W.
  unfold bind at 1. rewrite (next_inside s Hp). cbv zeta.
  unfold bind, backup, bind, get, put, ret. simpl.
  eexists. split; [reflexivity|]. simpl.
  repeat split; lia.
Qed.

End ForwardBack.

(* ------------------------------------------------------------------ *)
(** ** [Reverse] *)

Section ReverseFacts.

Lemma nth_app_plus (l1 l2 : list Z) (k : nat) :
  nth (List.length l1 + k) (l1 ++ l2) 0 = nth k l2 0.
Proof. induction l1 as [|x l1 IH]; simpl; auto. Qed.

Lemma store_app_plus (l1 l2 : list Z) (k : nat) (v : Z) :
  store (l1 ++ l2) (List.length l1 + k) v = (l1 ++ store l2 k v)%list.
Proof.
  induction l1 as [|x l1 IH]; simpl; [reflexivity|].
  rewrite IH. reflexivity.
Qed.

(** One exchange of the loop: the two ends of the middle part. *)
Lemma swap_ends (pre m suf : list Z) (a b : Z) :
  swap (pre ++ (a :: m ++ [b]) ++ suf)
    (rlen pre) (rlen pre + rlen m + 1)
  = ((pre ++ [b]) ++ m ++ ([a] ++ suf))%list.
Proof.
  assert (E : (pre ++ (a :: m ++ [b]) ++ suf
               = pre ++ (a :: m) ++ (b :: suf))%list)
    by (simpl; rewrite <- app_assoc; reflexivity).
  rewrite E. unfold swap, rlen.
  replace (Z.to_nat (Z.of_nat (List.length pre)))
    with (List.length pre + 0)%nat by lia.
  replace (Z.to_nat (Z.of_nat (List.length pre)
                     + Z.of_nat (List.length m) + 1))
    with (List.length pre + (List.length (a :: m) + 0))%nat
    by (simpl; lia).
  rewrite !nth_app_plus. simpl nth.
  rewrite store_app_plus.
  change (store ((a :: m) ++ b :: suf) 0 b)
    with ((b :: m) ++ (b :: suf))%list.
  change (List.length (a :: m)) with (List.length (b :: m)).
  rewrite !store_app_plus. simpl store.
  rewrite <- !app_assoc. reflexivity.
Qed.

Lemma half_lt (p m : Z) :
  0 <= m -> (p <? (2 * p + m) / 2) = (2 <=? m).
Proof.
  intros Hm.
  destruct (Z.ltb_spec p ((2 * p + m) / 2)), (Z.leb_spec 2 m);
    try reflexivity; exfalso; Z.div_mod_to_equations; lia.
Qed.

Lemma rlen_nonneg (r : list Z) : 0 <= rlen r.
Proof. unfold rlen. lia. Qed.

Lemma rlen_app (r1 r2 : list Z) : rlen (r1 ++ r2) = rlen r1 + rlen r2.
Proof. unfold rlen. rewrite length_app. lia. Qed.

Lemma rlen_cons (x : Z) (r : list Z) : rlen (x :: r) = rlen r + 1.
Proof. unfold rlen. simpl List.length. lia. Qed.

Lemma Reverse_loop_middle (fuel : nat) :
  forall (pre mid suf : list Z),
    List.length pre = List.length suf ->
    (List.length mid <= fuel)%nat ->
    Reverse_loop fuel (rlen pre) (rlen pre + rlen mid - 1)
      (pre ++ mid ++ suf)
    = (pre ++ rev mid ++ suf)%list.
Proof.
  induction fuel as [|fuel IH]; intros pre mid suf Hps Hfuel.
  - destruct mid; [reflexivity|simpl in Hfuel; lia].
  - simpl Reverse_loop.
    assert (Hlen : rlen (pre ++ mid ++ suf) = 2 * rlen pre + rlen mid).
    { rewrite !rlen_app. unfold rlen. lia. }
    rewrite Hlen, half_lt by apply rlen_nonneg.
    destruct mid as [|a mid]; [reflexivity|].
    destruct (exists_last (l := a :: mid) ltac:(discriminate))
      as (front & b & E).
    destruct front as [|a' m].
    { simpl in E. injection E as -> ->. reflexivity. }
    simpl in E. injection E as <- ->.
    assert (Hm : rlen (a :: m ++ [b]) = rlen m + 2).
    { rewrite rlen_cons, rlen_app, rlen_cons. unfold rlen. simpl. lia. }
    rewrite Hm.
    pose proof (rlen_nonneg m) as Hm0.
    destruct (Z.leb_spec 2 (rlen m + 2)) as [_|]; [|lia].
    replace (rlen pre + (rlen m + 2) - 1) with (rlen pre + rlen m + 1)
      by lia.
    change (pre ++ (a :: m ++ [b]) ++ suf)%list
      with (pre ++ (a :: m ++ [b]) ++ suf)%list.
    rewrite swap_ends.
    replace (rlen pre + 1) with (rlen (pre ++ [b]))
      by (rewrite rlen_app, rlen_cons; unfold rlen; simpl; lia).
    replace (rlen pre + rlen m + 1 - 1)
      with (rlen (pre ++ [b]) + rlen m - 1)
      by (rewrite rlen_app, rlen_cons; unfold rlen; simpl; lia).
    rewrite IH.
    + simpl rev. rewrite rev_app_distr. simpl.
      rewrite <- !app_assoc. reflexivity.
    + rewrite !length_app. simpl. lia.
    + simpl in Hfuel. rewrite length_app in Hfuel. simpl in Hfuel. lia.
Qed.

(** The loop of [Reverse] reverses any slice of runes. *)
Lemma Reverse_loop_rev (r : list Z) :
  Reverse_loop (List.length r) 0 (rlen r - 1) r = rev r.
Proof.
  pose proof (Reverse_loop_middle (List.length r) [] r [] eq_refl
                (Nat.le_refl _)) as H.
  simpl in H. rewrite !app_nil_r in H. exact H.
Qed.

(** [Reverse] writes the code points of its argument in reverse order. *)
Lemma Reverse_eq (s : string) :
  Reverse s = string_of_runes (rev (runes s)).
Proof. unfold Reverse. rewrite Reverse_loop_rev. reflexivity. Qed.

End ReverseFacts.

Section ReverseAscii.

Lemma byte_to_byte (x : Z) : byte (to_byte x) = x mod 256.
Proof.
  unfold byte, to_byte.
  pose proof (Z.mod_pos_bound x 256 ltac:(lia)) as B.
  rewrite N_ascii_embedding by lia.
  lia.
Qed.

Lemma to_byte_byte (c : ascii) : to_byte (byte c) = c.
Proof.
  unfold byte, to_byte. pose proof (N_ascii_bounded c) as B.
  rewrite Z.mod_small by lia.
  rewrite N2Z.id. apply ascii_N_embedding.
Qed.

Lemma decode_ascii_head (c : ascii) (t : string) :
  byte c < 0x80 ->
  utf8.DecodeRuneInString (String c t) = (byte c, 1).
Proof.
  intros Hc. rewrite decode_arith. unfold decode_spec.
  change (byte_at (String c t) 0) with (byte c).
  assert (Hn : 1 <= len (String c t)) by (unfold len; simpl; lia).
  destruct (Z.ltb_spec (len (String c t)) 1); [lia|].
  destruct (Z.ltb_spec (byte c) 128); [reflexivity|lia].
Qed.

Lemma encode_ascii (c : ascii) :
  byte c < 0x80 -> utf8.EncodeRune (byte c) = String c "".
Proof.
  intros Hc. unfold utf8.EncodeRune, utf8.rune1Max.
  pose proof (byte_range c) as B.
  destruct (Z.leb_spec 0 (byte c)); [|lia].
  destruct (Z.leb_spec (byte c) 127); [|lia].
  simpl. rewrite to_byte_byte. reflexivity.
Qed.

Lemma runes_loop_ascii (s : string) :
  is_ascii s = true ->
  forall fuel, (String.length s <= fuel)%nat ->
    runes_loop fuel s = map byte (list_ascii_of_string s).
Proof.
  induction s as [|c s IH]; intros Ha fuel Hf.
  - destruct fuel; reflexivity.
  - simpl in Ha. apply andb_true_iff in Ha. destruct Ha as [Hc Hs].
    apply Z.ltb_lt in Hc.
    destruct fuel as [|fuel]; [simpl in Hf; lia|].
    cbn [runes_loop]. rewrite (decode_ascii_head c s Hc).
    change (drop (Z.to_nat 1) (String c s)) with s.
    rewrite IH; [reflexivity|assumption|simpl in Hf; lia].
Qed.

Lemma string_of_runes_ascii (cs : list ascii) :
  Forall (fun c => byte c < 0x80) cs ->
  string_of_runes (map byte cs) = string_of_list_ascii cs.
Proof.
  induction 1 as [|c cs Hc _ IH]; [reflexivity|].
  unfold string_of_runes in *. simpl. rewrite IH, (encode_ascii c Hc).
  reflexivity.
Qed.

Lemma is_ascii_list (s : string) :
  is_ascii s = true ->
  Forall (fun c => byte c < 0x80) (list_ascii_of_string s).
Proof.
  induction s as [|c s IH]; intros Ha; simpl; constructor;
    simpl in Ha; apply andb_true_iff in Ha; destruct Ha as [Hc Hs].
  - apply Z.ltb_lt. exact Hc.
  - apply IH. exact Hs.
Qed.

Lemma list_is_ascii (cs : list ascii) :
  Forall (fun c => byte c < 0x80) cs ->
  is_ascii (string_of_list_ascii cs) = true.
Proof.
  induction 1 as [|c cs Hc _ IH]; [reflexivity|].
  simpl. rewrite IH. apply Z.ltb_lt in Hc. rewrite Hc. reflexivity.
Qed.

Lemma runes_rev_ascii (s : string) :
  is_ascii s = true -> string_of_runes (rev (runes s)) = srev s.
Proof.
  intros Ha. unfold runes.
  rewrite (runes_loop_ascii s Ha _ (Nat.le_refl _)), <- map_rev.
  apply string_of_runes_ascii.
  apply Forall_rev. apply is_ascii_list. exact Ha.
Qed.

(** X16. On an ASCII string [Reverse] reverses the bytes. *)
Theorem Reverse_ascii (s : string) :
  is_ascii s = true -> Reverse s = srev s.
Proof.
  intros Ha. rewrite Reverse_eq. apply runes_rev_ascii. exact Ha.
Qed.

End ReverseAscii.

(* ------------------------------------------------------------------ *)
(** ** What decoding consumes *)

Section Consumption.
Import utf8.

Ltac split_all :=
  repeat (match goal with
          | |- context [?a =? ?b] =>
              destruct (Z.eqb_spec a b); try (exfalso; lia)
          | |- context [?a <? ?b] =>
              destruct (Z.ltb_spec a b); try (exfalso; lia)
          | |- context [?a <=? ?b] =>
              destruct (Z.leb_spec a b); try (exfalso; lia)
          end; cbv beta iota; cbn [andb orb fst snd]).

Ltac finish_arith :=
  first [reflexivity | exfalso; Z.div_mod_to_equations; lia].

Ltac split_in H :=
  repeat (match type of H with
          | context [?a =? ?b] =>
              destruct (Z.eqb_spec a b); try (exfalso; lia)
          | context [?a <? ?b] =>
              destruct (Z.ltb_spec a b); try (exfalso; lia)
          | context [?a <=? ?b] =>
              destruct (Z.leb_spec a b); try (exfalso; lia)
          end; cbv beta iota in H; cbn [andb orb] in H).

Ltac decode_cases s r w E :=
  destruct (DecodeRuneInString s) as [r w] eqn:E;
  rewrite decode_arith in E; unfold decode_spec, RuneError in E;
  unfold len, byte_at in E; simpl String.length in E;
  simpl String.get in E;
  split_in E; injection E as <- <-.

Ltac norm_count :=
  cbn [fst snd];
  try change (Z.to_nat 1) with 1%nat;
  try change (Z.to_nat 2) with 2%nat;
  try change (Z.to_nat 3) with 3%nat;
  try change (Z.to_nat 4) with 4%nat;
  cbn [take count_byte].

(** The bytes of the code point at the head of a string hold the ASCII
    value [a] once if the code point is [a], and not at all otherwise. *)
Lemma decode_count (a : Z) (s : string) :
  0 <= a < 0x80 ->
  1 <= len s ->
  count_byte a (take (Z.to_nat (snd (DecodeRuneInString s))) s)
  = if fst (DecodeRuneInString s) =? a then 1%nat else 0%nat.
Proof.
  intros Ha Hn.
  destruct s as [|c0 s]; [unfold len in Hn; simpl in Hn; lia|].
  clear Hn. pose proof (byte_range c0).
  destruct s as [|c1 s].
  { decode_cases (String c0 "") r w E; norm_count; split_all;
      finish_arith. }
  pose proof (byte_range c1).
  destruct s as [|c2 s].
  { decode_cases (String c0 (String c1 "")) r w E;
      norm_count; split_all; finish_arith. }
  pose proof (byte_range c2).
  destruct s as [|c3 s].
  { decode_cases (String c0 (String c1 (String c2 ""))) r w E;
      norm_count; split_all; finish_arith. }
  pose proof (byte_range c3).
  decode_cases (String c0 (String c1 (String c2 (String c3 s)))) r w E;
    norm_count; split_all; finish_arith.
Qed.

End Consumption.

(* ------------------------------------------------------------------ *)
(** ** Counting bytes and code points; [SimpleParser] *)

Section Counting.

Lemma take_drop_id (n : nat) (s : string) :
  (take n s ++ drop n s)%string = s.
Proof.
  revert s. induction n as [|n IH]; intros [|c s]; simpl;
    try reflexivity. rewrite IH. reflexivity.
Qed.

Lemma count_byte_app (a : Z) (s t : string) :
  count_byte a (s ++ t) = (count_byte a s + count_byte a t)%nat.
Proof.
  induction s as [|c s IH]; simpl; [reflexivity|]. rewrite IH. lia.
Qed.

(** A code point has an ASCII value as often as a byte has it. *)
Lemma runes_loop_count (a : Z) :
  0 <= a < 0x80 ->
  forall (fuel : nat) (s : string),
    (String.length s <= fuel)%nat ->
    count_rune a (runes_loop fuel s) = count_byte a s.
Proof.
  intros Ha. induction fuel as [|fuel IH]; intros s Hf.
  - destruct s; [reflexivity|simpl in Hf; lia].
  - destruct s as [|c s]; [reflexivity|].
    set (t := String c s) in *.
    assert (Hn : 1 <= len t) by (unfold len, t; simpl; lia).
    pose proof (decode_width t Hn) as W.
    pose proof (decode_count a t Ha Hn) as C.
    change (runes_loop (S fuel) t)
      with (let (r, w) := utf8.DecodeRuneInString t in
            r :: runes_loop fuel (drop (Z.to_nat w) t)).
    destruct (utf8.DecodeRuneInString t) as [r w]. cbn [fst snd] in *.
    cbn [count_rune]. rewrite IH.
    + rewrite <- (take_drop_id (Z.to_nat w) t) at 2.
      rewrite count_byte_app, C. reflexivity.
    + rewrite length_drop. unfold len in W. lia.
Qed.

Lemma runes_count (a : Z) (s : string) :
  0 <= a < 0x80 -> count_rune a (runes s) = count_byte a s.
Proof. intros Ha. apply runes_loop_count; [assumption|lia]. Qed.

(** Only the code point [0x20] is written as one space. *)
Lemma encode_is_space (r : Z) :
  (utf8.EncodeRune r =? " ")%string = (r =? 0x20).
Proof.
  unfold utf8.EncodeRune, utf8.encode3.
  destruct ((0 <=? r) && (r <=? utf8.rune1Max)) eqn:E1.
  - apply andb_true_iff in E1. destruct E1 as [L U].
    apply Z.leb_le in L. apply Z.leb_le in U. unfold utf8.rune1Max in U.
    cbn [String.eqb].
    destruct (Z.eqb_spec r 32) as [->|Hne]; [reflexivity|].
    destruct (Ascii.eqb_spec (to_byte r) " ") as [Hb|_]; [|reflexivity].
    apply (f_equal byte) in Hb. rewrite byte_to_byte in Hb.
    rewrite Z.mod_small in Hb by lia.
    contradiction Hne.
  - assert (Hne : (r =? 32) = false).
    { destruct (Z.eqb_spec r 32) as [->|]; [discriminate E1|reflexivity]. }
    rewrite Hne.
    repeat match goal with
           | |- context [if ?c then _ else _] => destruct c
           end; cbn [String.eqb];
      match goal with
      | |- (if ?c then false else false) = false => destruct c; reflexivity
      | |- _ => rewrite ?andb_false_r; reflexivity
      end.
Qed.

Lemma spaces_snoc (res : string) (n : nat) :
  ((res ++ " ") ++ spaces n)%string = (res ++ spaces (S n))%string.
Proof. rewrite app_assoc_s. reflexivity. Qed.

Lemma SimpleParser_fold (rs : list Z) :
  forall res : string,
    fold_left SimpleParser_step rs (res, "")
    = ((res ++ spaces (count_rune 0x20 rs))%string, "").
Proof.
  induction rs as [|r rs IH]; intros res.
  - simpl. rewrite app_empty_r. reflexivity.
  - change (fold_left SimpleParser_step (r :: rs) (res, ""))
      with (fold_left SimpleParser_step rs (SimpleParser_step (res, "") r)).
    assert (E : SimpleParser_step (res, "") r
                = if r =? 32 then ((res ++ " ")%string, "") else (res, "")).
    { unfold SimpleParser_step. rewrite encode_is_space. reflexivity. }
    rewrite E. cbn [count_rune].
    destruct (r =? 32).
    + rewrite IH, spaces_snoc. reflexivity.
    + rewrite IH. reflexivity.
Qed.

(** X17. [SimpleParser] never fills its [word]: it returns one space for each
    space of the input, and nothing else. *)
Theorem SimpleParser_spaces (input : string) :
  SimpleParser input = spaces (count_byte 0x20 input).
Proof.
  unfold SimpleParser. rewrite SimpleParser_fold.
  change (len "" >? 0) with false. cbv iota.
  rewrite runes_count by lia. reflexivity.
Qed.

End Counting.

(* ------------------------------------------------------------------ *)
(** ** Where a scan ends *)

Section ScanEnd.

Lemma has_nul_count (s : string) :
  has_nul s = false <-> count_byte 0 s = 0%nat.
Proof.
  induction s as [|c s IH]; simpl; [tauto|].
  destruct (byte c =? 0); simpl; [split; [discriminate|lia]|].
  exact IH.
Qed.

Lemma has_nul_app (s t : string) :
  has_nul (s ++ t) = has_nul s || has_nul t.
Proof.
  induction s as [|c s IH]; simpl; [reflexivity|].
  rewrite IH. apply orb_assoc.
Qed.

Lemma has_nul_take_le (a b : nat) (s : string) :
  (a <= b)%nat -> has_nul (take b s) = false -> has_nul (take a s) = false.
Proof.
  intros Hab H. rewrite <- (take_drop_app a b s Hab), has_nul_app in H.
  apply orb_false_iff in H. tauto.
Qed.

Lemma scan_end_no_nul (s : string) :
  has_nul s = false -> scan_end s = String.length s.
Proof.
  induction s as [|c s IH]; simpl; [reflexivity|].
  destruct (byte c =? 0); simpl; [discriminate|].
  intros H. rewrite (IH H). reflexivity.
Qed.

Lemma scan_end_at (p : nat) (s : string) :
  has_nul (take p s) = false ->
  (p < String.length s)%nat ->
  byte_at (drop p s) 0 = 0 ->
  scan_end s = S p.
Proof.
  revert s. induction p as [|p IH]; intros [|c s] Hpre Hlt Hz;
    simpl in *; try lia.
  - unfold byte_at in Hz. simpl in Hz. rewrite Hz. reflexivity.
  - destruct (byte c =? 0); simpl in Hpre; [discriminate|].
    rewrite (IH s Hpre ltac:(lia) Hz). reflexivity.
Qed.

(** The bytes [next] steps over, when it does not return [eof], are not
    zero. *)
Lemma has_nul_step (inp : string) (l : Lexer) :
  input l = inp ->
  0 <= Position l < len inp ->
  fst (peek l) <> eof ->
  has_nul (take (Z.to_nat (Position l)) inp) = false ->
  has_nul (take (Z.to_nat (Position l + snd (peek l))) inp) = false.
Proof.
  intros Hi Hp Hr Hpre.
  pose proof (peek_width l ltac:(rewrite Hi; lia)) as W.
  unfold peek in *. rewrite Hi in *.
  set (rest := drop (Z.to_nat (Position l)) inp) in *.
  assert (Hn : 1 <= len rest).
  { unfold rest, len. rewrite length_drop. unfold len in Hp. lia. }
  pose proof (decode_count 0 rest ltac:(lia) Hn) as C.
  destruct (Z.eqb_spec (fst (utf8.DecodeRuneInString rest)) 0) as [E|_];
    [contradiction|].
  apply has_nul_count in C.
  rewrite <- (take_drop_app (Z.to_nat (Position l))
                (Z.to_nat (Position l + snd (utf8.DecodeRuneInString rest)))
                inp) by lia.
  rewrite has_nul_app, Hpre. simpl.
  replace (Z.to_nat (Position l + snd (utf8.DecodeRuneInString rest))
           - Z.to_nat (Position l))%nat
    with (Z.to_nat (snd (utf8.DecodeRuneInString rest))) by lia.
  exact C.
Qed.

(** A scan reads up to the first zero byte of its input: it ends just
    past that byte, or at the end of an input that has none. *)
Lemma Lex_scan_end (text : string) :
  exists l, Lex text = Ok l /\ Position l = Z.of_nat (scan_end text).
Proof.
  apply (Lex_invariant text
           (fun _ l => has_nul (take (Z.to_nat (Position l)) text) = false)
           (fun l => Position l = Z.of_nat (scan_end text))).
  - intros f l l' Hin [H0 [H1 H2]] Hlt Hr _ _ _ _ Hp HJ.
    rewrite Hp. apply (has_nul_step text l); try assumption. lia.
  - intros f l l' Hin [H0 [H1 H2]] Hlt Hr _ _ Hp _ HJ.
    pose proof (peek_width l ltac:(rewrite Hin; lia)) as W.
    apply (has_nul_take_le _ (Z.to_nat (Position l + snd (peek l))));
      [lia|].
    apply (has_nul_step text l); try assumption. lia.
  - intros f l l' Hin [H0 [H1 H2]] Hq _ _ _ HJ.
    rewrite Hin in H2.
    destruct Hq as [(-> & Hend) | (Hlt & Hr & ->)].
    + rewrite Hend in *.
      rewrite take_all in HJ by (unfold len; lia).
      rewrite (scan_end_no_nul text HJ). reflexivity.
    + assert (Hn : 1 <= len (drop (Z.to_nat (Position l)) text)).
      { unfold len. rewrite length_drop. unfold len in Hlt. lia. }
      unfold peek in *. rewrite Hin in *.
      pose proof (decode_zero _ Hn Hr) as Hz.
      rewrite (scan_end_at (Z.to_nat (Position l)) text HJ
                 ltac:(unfold len in Hlt; lia) Hz).
      assert (W : snd (utf8.DecodeRuneInString
                         (drop (Z.to_nat (Position l)) text)) = 1).
      { apply decode_ascii; [assumption|lia]. }
      rewrite W. lia.
  - intros l H. exact H.
  - reflexivity.
Qed.

(** X2. For every input, the values of the non-terminal items concatenate to
    the input up to and including its first zero byte, or to the whole
    input if it has no zero byte. *)
Theorem segments_cover_scanned_prefix (text : string) :
  exists l,
    Lex text = Ok l
    /\ Position l = Z.of_nat (scan_end text)
    /\ join (segments (Items l)) = take (scan_end text) text.
Proof.
  destruct (Lex_scan_end text) as (l & E & Hp).
  exists l. split; [assumption|]. split; [assumption|].
  destruct (Lex_spec text)
    as (s & _ & E' & [_ _ _ (pre & Hit & Hseg & Hj & _) _]).
  rewrite E in E'. injection E' as ->.
  set (t := Item.mk (Position (lx s)) EOF "") in *.
  unfold segments. rewrite Hit, (filter_segments pre t Hseg eq_refl), Hj.
  rewrite Hp, Nat2Z.id. reflexivity.
Qed.

End ScanEnd.

(* ------------------------------------------------------------------ *)
(** ** [Parse] on ASCII input: words reversed in place *)

Section Words.

Lemma string_of_list_ascii_app (l1 l2 : list ascii) :
  string_of_list_ascii (l1 ++ l2)
  = (string_of_list_ascii l1 ++ string_of_list_ascii l2)%string.
Proof. induction l1 as [|c l1 IH]; simpl; [|rewrite IH]; reflexivity. Qed.

Lemma list_ascii_of_string_app (s t : string) :
  list_ascii_of_string (s ++ t)
  = (list_ascii_of_string s ++ list_ascii_of_string t)%list.
Proof. induction s as [|c s IH]; simpl; [|rewrite IH]; reflexivity. Qed.

Lemma srev_cons (c : ascii) (s : string) :
  srev (String c s) = (srev s ++ String c "")%string.
Proof.
  unfold srev. simpl. rewrite string_of_list_ascii_app. reflexivity.
Qed.

Lemma srev_snoc (c : ascii) (s : string) :
  srev (s ++ String c "") = String c (srev s).
Proof.
  unfold srev. rewrite list_ascii_of_string_app, rev_app_distr.
  reflexivity.
Qed.

Lemma drop_drop (a k : nat) (s : string) :
  drop k (drop a s) = drop (a + k) s.
Proof.
  revert s. induction a as [|a IH]; intros s; simpl; [reflexivity|].
  destruct s as [|c s]; [destruct k; reflexivity|]. apply IH.
Qed.

Lemma drop_next (n : nat) (s : string) :
  (n < String.length s)%nat ->
  exists c, drop n s = String c (drop (S n) s).
Proof.
  revert s. induction n as [|n IH]; intros [|c s] H; simpl in *; try lia.
  - exists c. reflexivity.
  - apply IH. lia.
Qed.

Lemma take_snoc (k : nat) (t : string) (c : ascii) (r : string) :
  drop k t = String c r ->
  take (S k) t = (take k t ++ String c "")%string.
Proof.
  revert t. induction k as [|k IH]; intros [|c' t] H; simpl in *;
    try discriminate.
  - injection H as -> _. reflexivity.
  - rewrite (IH t H). reflexivity.
Qed.

Lemma substr_snoc (inp : string) (a p : Z) (c : ascii) (r : string) :
  0 <= a <= p ->
  drop (Z.to_nat p) inp = String c r ->
  substr inp a (p + 1) = (substr inp a p ++ String c "")%string.
Proof.
  intros Ha Hd. unfold substr.
  replace (Z.to_nat (p + 1 - a)) with (S (Z.to_nat (p - a))) by lia.
  apply (take_snoc _ _ c r).
  rewrite drop_drop.
  replace (Z.to_nat a + Z.to_nat (p - a))%nat with (Z.to_nat p) by lia.
  exact Hd.
Qed.

Lemma drop_all (n : nat) (s : string) :
  (String.length s <= n)%nat -> drop n s = "".
Proof.
  revert s. induction n as [|n IH]; intros [|c s] H; simpl in *;
    try reflexivity; try lia.
  apply IH. lia.
Qed.

Lemma is_ascii_take (n : nat) (s : string) :
  is_ascii s = true -> is_ascii (take n s) = true.
Proof.
  revert s. induction n as [|n IH]; intros [|c s] H; simpl in *;
    try reflexivity.
  apply andb_true_iff in H. destruct H as [Hc Hs].
  rewrite Hc, (IH s Hs). reflexivity.
Qed.

Lemma is_ascii_drop (n : nat) (s : string) :
  is_ascii s = true -> is_ascii (drop n s) = true.
Proof.
  revert s. induction n as [|n IH]; intros [|c s] H; simpl in *;
    try reflexivity; try assumption.
  apply andb_true_iff in H. destruct H as [Hc Hs]. apply IH. exact Hs.
Qed.

Lemma is_ascii_substr (inp : string) (a b : Z) :
  is_ascii inp = true -> is_ascii (substr inp a b) = true.
Proof.
  intros H. unfold substr. apply is_ascii_take, is_ascii_drop. exact H.
Qed.

Lemma reassemble_snoc (its : list Item.t) (i : Item.t) :
  reassemble (its ++ [i]) = (reassemble its ++ transform i)%string.
Proof.
  unfold reassemble. rewrite map_app, join_app. simpl.
  rewrite app_empty_r. reflexivity.
Qed.

Variable inp : string.
Hypothesis inp_ascii : is_ascii inp = true.
Hypothesis inp_no_nul : has_nul inp = false.

(** On ASCII input [next] reads one byte. *)
Lemma peek_byte (l : Lexer) :
  input l = inp -> 0 <= Position l < len inp ->
  exists c,
    drop (Z.to_nat (Position l)) inp
    = String c (drop (Z.to_nat (Position l + 1)) inp)
    /\ peek l = (byte c, 1).
Proof.
  intros Hi Hp.
  destruct (drop_next (Z.to_nat (Position l)) inp
              ltac:(unfold len in Hp; lia)) as (c & Hd).
  exists c.
  replace (Z.to_nat (Position l + 1)) with (S (Z.to_nat (Position l)))
    by lia.
  split; [assumption|].
  unfold peek. rewrite Hi, Hd. apply decode_ascii_head.
  pose proof (is_ascii_drop (Z.to_nat (Position l)) inp inp_ascii) as A.
  rewrite Hd in A. simpl in A. apply andb_true_iff in A.
  destruct A as [A _]. apply Z.ltb_lt. exact A.
Qed.

Lemma words_invariant :
  exists l, Lex inp = Ok l /\ reassemble (Items l) = reverse_words inp.
Proof.
  apply (Lex_invariant inp
           (fun f l => reverse_words inp
                       = (reassemble (Items l) ++ words_tail inp f l)%string)
           (fun l => reassemble (Items l) = reverse_words inp)).
  - (* a byte of the handler's class *)
    intros f l l' Hin [H0 [H1 H2]] Hlt Hr Hb _ Hs Hi Hp HJ.
    destruct (peek_byte l Hin ltac:(lia)) as (c & Hd & Hpk).
    rewrite Hpk in *. cbn [fst snd] in *.
    rewrite HJ, Hi. f_equal. unfold words_tail.
    rewrite Hs, Hp, Hd.
    rewrite (substr_snoc inp (start l) (Position l) c _ ltac:(lia) Hd).
    destruct f; cbn [boundary_of] in Hb; cbn [rev_words_from].
    + rewrite Hb, srev_snoc. reflexivity.
    + apply negb_false_iff in Hb. rewrite Hb.
      rewrite app_assoc_s. reflexivity.
  - (* a byte of the other class *)
    intros f l l' Hin [H0 [H1 H2]] Hlt Hr Hb _ Hp Hcase HJ.
    destruct (peek_byte l Hin ltac:(lia)) as (c & Hd & Hpk).
    rewrite Hpk in *. cbn [fst snd] in *.
    assert (Hp' : Position l' = Position l) by lia.
    rewrite HJ. unfold words_tail.
    destruct Hcase as [(Hle & Hs & Hi) | (Hlt' & Hs & Hi)].
    + rewrite Hi, Hs, Hp'.
      replace (start l) with (Position l) by lia.
      rewrite substr_empty. destruct f; reflexivity.
    + rewrite Hi, Hs, Hp', substr_empty, reassemble_snoc.
      unfold transform. cbn [Item.Kind Item.Value].
      rewrite app_assoc_s. f_equal.
      destruct f; cbn [kind_of other boundary_of] in *.
      * rewrite Reverse_eq.
        rewrite (runes_rev_ascii _ (is_ascii_substr inp _ _ inp_ascii)).
        rewrite Hd. cbn [rev_words_from]. rewrite Hb. reflexivity.
      * reflexivity.
  - (* the end of the input *)
    intros f l l' Hin [H0 [H1 H2]] Hq _ _ Hi HJ.
    destruct Hq as [(Hp & Hend) | (Hlt & Hr & _)].
    2:{ exfalso. rewrite <- Hin in inp_no_nul.
        rewrite (peek_zero l ltac:(rewrite Hin; lia) Hr) in inp_no_nul.
        discriminate. }
    rewrite HJ, Hi.
    change (Items l ++ [Item.mk (start l) (kind_of f)
                          (substr inp (start l) (Position l'));
                        Item.mk (Position l') EOF ""])%list
      with (Items l ++ [Item.mk (start l) (kind_of f)
                          (substr inp (start l) (Position l'))]
                    ++ [Item.mk (Position l') EOF ""])%list.
    rewrite app_assoc, !reassemble_snoc.
    unfold transform at 2. cbn [Item.Kind]. rewrite app_empty_r.
    f_equal. unfold words_tail, transform. cbn [Item.Kind Item.Value].
    rewrite Hp, (drop_all (Z.to_nat (Position l)) inp)
      by (unfold len in Hend; lia).
    destruct f; cbn [kind_of rev_words_from].
    + rewrite Reverse_eq.
      rewrite (runes_rev_ascii _ (is_ascii_substr inp _ _ inp_ascii)).
      reflexivity.
    + rewrite app_empty_r. reflexivity.
  - intros l H. exact H.
  - unfold words_tail. cbn [new_Lexer start Position Items].
    rewrite substr_empty. reflexivity.
Qed.

End Words.

Section ParseWords.
Import parser.

(** [Parse] returns what the items of the scan reassemble to. *)
Lemma Parse_reassembles (text : string) (l : Lexer) :
  Lex text = Ok l ->
  Parse text = Ok (reassemble (Items l), None).
Proof.
  intros E.
  destruct (Lex_spec text) as (s & _ & E' & F).
  rewrite (Parse_finished text s E' F).
  rewrite E in E'. injection E' as ->.
  destruct F as [_ _ _ (pre & Hit & Hseg & _ & _) _].
  set (t := Item.mk (Position (lx s)) EOF "") in *.
  rewrite Hit, (before_terminal_segments pre t [] Hseg eq_refl).
  rewrite reassemble_snoc. unfold transform, t. cbn [Item.Kind].
  rewrite app_empty_r. reflexivity.
Qed.

(** X12. On ASCII input without a zero byte, [Parse] reverses every maximal
    run of non-space bytes in place and keeps every whitespace byte where
    it is. *)
Theorem Parse_reverses_words (text : string) :
  is_ascii text = true ->
  has_nul text = false ->
  Parse text = Ok (reverse_words text, None).
Proof.
  intros Ha Hn.
  destruct (words_invariant text Ha Hn) as (l & E & Hw).
  rewrite (Parse_reassembles text l E), Hw. reflexivity.
Qed.

End ParseWords.

(* ------------------------------------------------------------------ *)
(** ** [Parse] twice *)

Section Involution.
Import parser.

(** A run without whitespace comes out reversed, in front of [acc]. *)
Lemma rev_words_run (u : string) :
  all_bytes nonspace u = true ->
  forall acc, rev_words_from acc u = (srev u ++ acc)%string.
Proof.
  induction u as [|c u IH]; intros Hu acc; [reflexivity|].
  simpl in Hu. apply andb_true_iff in Hu. destruct Hu as [Hc Hu].
  unfold nonspace in Hc. apply negb_true_iff in Hc.
  cbn [rev_words_from]. rewrite Hc, (IH Hu), srev_cons, app_assoc_s.
  reflexivity.
Qed.

Lemma rev_words_run_space (u : string) (c : ascii) (x : string) :
  all_bytes nonspace u = true ->
  unicode.IsSpace (byte c) = true ->
  forall acc,
    rev_words_from acc (u ++ String c x)
    = (srev u ++ acc ++ String c (rev_words_from "" x))%string.
Proof.
  intros Hu Hc. induction u as [|c' u IH]; intros acc.
  - cbn [append rev_words_from]. rewrite Hc. reflexivity.
  - simpl in Hu. apply andb_true_iff in Hu. destruct Hu as [Hc' Hu].
    unfold nonspace in Hc'. apply negb_true_iff in Hc'.
    cbn [append rev_words_from]. rewrite Hc', (IH Hu), srev_cons.
    rewrite app_assoc_s. reflexivity.
Qed.

Lemma all_bytes_srev (p : Z -> bool) (s : string) :
  all_bytes p (srev s) = all_bytes p s.
Proof.
  assert (Happ : forall a b,
             all_bytes p (a ++ b) = all_bytes p a && all_bytes p b).
  { induction a as [|c a IH]; intros b; simpl; [reflexivity|].
    rewrite IH. apply andb_assoc. }
  induction s as [|c s IH]; [reflexivity|].
  rewrite srev_cons, Happ, IH. simpl.
  rewrite andb_true_r. apply andb_comm.
Qed.

Lemma rev_words_twice (s : string) :
  forall acc,
    all_bytes nonspace acc = true ->
    rev_words_from "" (rev_words_from acc s) = (srev acc ++ s)%string.
Proof.
  induction s as [|c s IH]; intros acc Hacc.
  - cbn [rev_words_from]. apply rev_words_run. exact Hacc.
  - cbn [rev_words_from].
    destruct (unicode.IsSpace (byte c)) eqn:Hc.
    + rewrite (rev_words_run_space acc c _ Hacc Hc).
      rewrite (IH "" eq_refl). reflexivity.
    + rewrite IH.
      * rewrite srev_cons, app_assoc_s. reflexivity.
      * simpl. unfold nonspace at 1. rewrite Hc. exact Hacc.
Qed.

(** The reference transform is its own inverse. *)
Lemma reverse_words_involutive (s : string) :
  reverse_words (reverse_words s) = s.
Proof. unfold reverse_words. apply (rev_words_twice s "" eq_refl). Qed.

Lemma is_ascii_app (a b : string) :
  is_ascii (a ++ b) = is_ascii a && is_ascii b.
Proof.
  induction a as [|c a IH]; simpl; [reflexivity|].
  rewrite IH. apply andb_assoc.
Qed.

Lemma rev_words_ascii (s : string) :
  forall acc,
    is_ascii (rev_words_from acc s) = is_ascii acc && is_ascii s.
Proof.
  induction s as [|c s IH]; intros acc; cbn [rev_words_from].
  - simpl. rewrite andb_true_r. reflexivity.
  - destruct (unicode.IsSpace (byte c)).
    + rewrite is_ascii_app. simpl. rewrite IH. reflexivity.
    + rewrite IH. simpl. rewrite andb_assoc.
      f_equal. apply andb_comm.
Qed.

Lemma rev_words_nul (s : string) :
  forall acc,
    has_nul (rev_words_from acc s) = has_nul acc || has_nul s.
Proof.
  induction s as [|c s IH]; intros acc; cbn [rev_words_from].
  - simpl. rewrite orb_false_r. reflexivity.
  - destruct (unicode.IsSpace (byte c)).
    + rewrite has_nul_app. simpl. rewrite IH. reflexivity.
    + rewrite IH. simpl. rewrite orb_assoc.
      f_equal. apply orb_comm.
Qed.

(** X13. On ASCII input without a zero byte, [Parse] undoes itself: parsing
    the output of [Parse] gives the input back. *)
Theorem Parse_twice (text : string) :
  is_ascii text = true ->
  has_nul text = false ->
  exists out,
    Parse text = Ok (out, None) /\ Parse out = Ok (text, None).
Proof.
  intros Ha Hn. exists (reverse_words text).
  destruct (words_invariant text Ha Hn) as (l & E & Hw).
  split; [rewrite (Parse_reassembles text l E), Hw; reflexivity|].
  assert (Ha' : is_ascii (reverse_words text) = true)
    by (unfold reverse_words; rewrite rev_words_ascii; exact Ha).
  assert (Hn' : has_nul (reverse_words text) = false)
    by (unfold reverse_words; rewrite rev_words_nul; exact Hn).
  destruct (words_invariant (reverse_words text) Ha' Hn')
    as (l' & E' & Hw').
  rewrite (Parse_reassembles _ l' E'), Hw', reverse_words_involutive.
  reflexivity.
Qed.

End Involution.

(* ------------------------------------------------------------------ *)
(** ** The bytes of each segment, on ASCII input *)

Section Classes.

Lemma all_bytes_app (p : Z -> bool) (a b : string) :
  all_bytes p (a ++ b) = all_bytes p a && all_bytes p b.
Proof.
  induction a as [|c a IH]; simpl; [reflexivity|].
  rewrite IH. apply andb_assoc.
Qed.

Lemma forallb_snoc {A} (p : A -> bool) (l : list A) (x : A) :
  forallb p (l ++ [x]) = forallb p l && p x.
Proof. rewrite forallb_app. simpl. rewrite andb_true_r. reflexivity. Qed.

Lemma classified_segment (f : stateFn) (pos : Z) (v : string) :
  classified (Item.mk pos (kind_of f) v) = all_bytes (class_of f) v.
Proof. destruct f; reflexivity. Qed.

(** X6. On ASCII input without a zero byte, no [Text] item holds a whitespace
    byte and every byte of a [WhiteSpace] item is whitespace. *)
Theorem ascii_segments_classified (text : string) :
  is_ascii text = true ->
  has_nul text = false ->
  exists l, Lex text = Ok l /\ forallb classified (Items l) = true.
Proof.
  intros Ha Hn.
  apply (Lex_invariant text
           (fun f l =>
              forallb classified (Items l) = true
              /\ all_bytes (class_of f)
                   (substr text (start l) (Position l)) = true)
           (fun l => forallb classified (Items l) = true)).
  - intros f l l' Hin [H0 [H1 H2]] Hlt Hr Hb _ Hs Hi Hp [HI HP].
    destruct (peek_byte text Ha l Hin ltac:(lia)) as (c & Hd & Hpk).
    rewrite Hpk in *. cbn [fst snd] in *.
    rewrite Hi, Hs, Hp. split; [assumption|].
    rewrite (substr_snoc text (start l) (Position l) c _ ltac:(lia) Hd).
    rewrite all_bytes_app, HP. simpl. rewrite andb_true_r.
    destruct f; cbn [boundary_of class_of] in *.
    + unfold nonspace. rewrite Hb. reflexivity.
    + apply negb_false_iff in Hb. exact Hb.
  - intros f l l' Hin [H0 [H1 H2]] Hlt Hr Hb _ Hp Hcase [HI HP].
    destruct (peek_byte text Ha l Hin ltac:(lia)) as (c & Hd & Hpk).
    rewrite Hpk in *. cbn [fst snd] in *.
    assert (Hp' : Position l' = Position l) by lia.
    destruct Hcase as [(Hle & Hs & Hi) | (Hlt' & Hs & Hi)].
    + rewrite Hi, Hs, Hp'. split; [assumption|].
      replace (start l) with (Position l) by lia.
      rewrite substr_empty. reflexivity.
    + rewrite Hi, Hs, Hp', substr_empty, forallb_snoc, HI.
      rewrite classified_segment, HP. split; reflexivity.
  - intros f l l' Hin [H0 [H1 H2]] Hq _ _ Hi [HI HP].
    destruct Hq as [(Hp & Hend) | (Hlt & Hr & _)].
    2:{ exfalso. rewrite <- Hin in Hn.
        rewrite (peek_zero l ltac:(rewrite Hin; lia) Hr) in Hn.
        discriminate. }
    rewrite Hi, forallb_app, HI. cbn [forallb].
    rewrite classified_segment, Hp, HP. reflexivity.
  - intros l H. exact H.
  - split; [reflexivity|]. cbn [new_Lexer start Position].
    rewrite substr_empty. reflexivity.
Qed.

End Classes.

(* ------------------------------------------------------------------ *)
(** ** Encoding and decoding code points *)

Section RoundTrip.
Import utf8.

Ltac split_goal :=
  repeat (match goal with
          | |- context [?a =? ?b] =>
              destruct (Z.eqb_spec a b);
              try (exfalso; Z.div_mod_to_equations; lia)
          | |- context [?a <? ?b] =>
              destruct (Z.ltb_spec a b);
              try (exfalso; Z.div_mod_to_equations; lia)
          | |- context [?a <=? ?b] =>
              destruct (Z.leb_spec a b);
              try (exfalso; Z.div_mod_to_equations; lia)
          end; cbv beta iota; cbn [andb orb fst snd]).

(** Every decoded code point is a scalar value. *)
Lemma decode_spec_valid (n b0 b1 b2 b3 : Z) :
  0 <= b0 < 256 -> 0 <= b1 < 256 -> 0 <= b2 < 256 -> 0 <= b3 < 256 ->
  valid_rune (fst (decode_spec n b0 b1 b2 b3)) = true.
Proof.
  intros H0 H1 H2 H3.
  destruct (decode_spec n b0 b1 b2 b3) as [r w] eqn:E.
  unfold decode_spec, RuneError in E.
  repeat (match type of E with
          | context [?a =? ?b] =>
              destruct (Z.eqb_spec a b); try (exfalso; lia)
          | context [?a <? ?b] =>
              destruct (Z.ltb_spec a b); try (exfalso; lia)
          | context [?a <=? ?b] =>
              destruct (Z.leb_spec a b); try (exfalso; lia)
          end; cbv beta iota in E; cbn [andb orb] in E);
    injection E as <- <-; cbn [fst];
    unfold valid_rune, surrogateMin, surrogateMax, MaxRune;
    apply orb_true_iff; rewrite !andb_true_iff;
    rewrite ?Z.leb_le, ?Z.ltb_lt; Z.div_mod_to_equations; lia.
Qed.

Lemma decode_valid (s : string) :
  valid_rune (fst (DecodeRuneInString s)) = true.
Proof.
  rewrite decode_arith. apply decode_spec_valid; apply byte_at_range.
Qed.

Lemma lor_t2 (x : Z) : 0 <= x < 64 -> Z.lor t2 x = 192 + x.
Proof. intros H. apply (lor_add_low 192 x 6); [lia|reflexivity|assumption]. Qed.

Lemma lor_tx (x : Z) : 0 <= x < 64 -> Z.lor tx x = 128 + x.
Proof. intros H. apply (lor_add_low 128 x 6); [lia|reflexivity|assumption]. Qed.

Lemma lor_t3 (x : Z) : 0 <= x < 16 -> Z.lor t3 x = 224 + x.
Proof. intros H. apply (lor_add_low 224 x 4); [lia|reflexivity|assumption]. Qed.

Lemma lor_t4 (x : Z) : 0 <= x < 8 -> Z.lor t4 x = 240 + x.
Proof. intros H. apply (lor_add_low 240 x 3); [lia|reflexivity|assumption]. Qed.

Lemma lor_tx_mod (x : Z) : Z.lor tx (Z.land x maskx) = 128 + x mod 64.
Proof.
  rewrite land_maskx. apply lor_tx. apply Z.mod_pos_bound. lia.
Qed.

Lemma encode3_bytes (r : Z) :
  0 <= r <= 0xFFFF ->
  encode3 r
  = String (to_byte (224 + r / 4096))
      (String (to_byte (128 + (r / 64) mod 64))
         (String (to_byte (128 + r mod 64)) "")).
Proof.
  intros Hr. unfold encode3.
  rewrite !lor_tx_mod, !Z.shiftr_div_pow2 by lia.
  change (2 ^ 12) with 4096. change (2 ^ 6) with 64.
  rewrite lor_t3 by (Z.div_mod_to_equations; lia).
  reflexivity.
Qed.

(** The bytes of the encoding of a scalar value. *)
Lemma encode_bytes (r : Z) :
  valid_rune r = true ->
  EncodeRune r
  = if r <? 0x80 then String (to_byte r) ""
    else if r <? 0x800 then
      String (to_byte (192 + r / 64))
        (String (to_byte (128 + r mod 64)) "")
    else if r <? 0x10000 then
      String (to_byte (224 + r / 4096))
        (String (to_byte (128 + (r / 64) mod 64))
           (String (to_byte (128 + r mod 64)) ""))
    else
      String (to_byte (240 + r / 262144))
        (String (to_byte (128 + (r / 4096) mod 64))
           (String (to_byte (128 + (r / 64) mod 64))
              (String (to_byte (128 + r mod 64)) ""))).
Proof.
  intros Hv. unfold valid_rune, surrogateMin, surrogateMax, MaxRune in Hv.
  assert (Hr : 0 <= r < 55296 \/ 57343 < r <= 1114111).
  { apply orb_true_iff in Hv. rewrite !andb_true_iff in Hv.
    rewrite ?Z.leb_le, ?Z.ltb_lt in Hv. lia. }
  clear Hv. unfold EncodeRune.
  unfold rune1Max, rune2Max, rune3Max, surrogateMin, surrogateMax, MaxRune.
  split_goal.
  - reflexivity.
  - rewrite lor_tx_mod, Z.shiftr_div_pow2 by lia.
    change (2 ^ 6) with 64.
    rewrite lor_t2 by (Z.div_mod_to_equations; lia). reflexivity.
  - apply encode3_bytes. lia.
  - apply encode3_bytes. lia.
  - rewrite !lor_tx_mod, !Z.shiftr_div_pow2 by lia.
    change (2 ^ 18) with 262144. change (2 ^ 12) with 4096.
    change (2 ^ 6) with 64.
    rewrite lor_t4 by (Z.div_mod_to_equations; lia). reflexivity.
Qed.

Ltac decide_decode :=
  rewrite decode_arith; unfold byte_at, len;
  cbn [String.get String.length];
  rewrite !byte_to_byte;
  rewrite !(Z.mod_small _ 256) by lia;
  unfold decode_spec, RuneError;
  repeat (match goal with
          | |- context [?a =? ?b] =>
              destruct (Z.eqb_spec a b); try (exfalso; lia)
          | |- context [?a <? ?b] =>
              destruct (Z.ltb_spec a b); try (exfalso; lia)
          | |- context [?a <=? ?b] =>
              destruct (Z.leb_spec a b); try (exfalso; lia)
          end; cbv beta iota; cbn [andb orb]).

Lemma decode_encode1 (r : Z) (rest : string) :
  0 <= r < 128 ->
  DecodeRuneInString (String (to_byte r) rest) = (r, 1).
Proof.
  intros Hr.
  pose proof (len_nonneg rest) as Hn. unfold len in Hn.
  decide_decode. reflexivity.
Qed.

Lemma decode_encode2 (r : Z) (rest : string) :
  128 <= r < 2048 ->
  DecodeRuneInString
    (String (to_byte (192 + r / 64))
       (String (to_byte (128 + r mod 64)) rest))
  = (r, 2).
Proof.
  intros Hr.
  assert (Hq : 2 <= r / 64 < 32) by (Z.div_mod_to_equations; lia).
  assert (Hm : 0 <= r mod 64 < 64) by (apply Z.mod_pos_bound; lia).
  assert (Er : r = r / 64 * 64 + r mod 64)
    by (Z.div_mod_to_equations; lia).
  generalize dependent (r / 64). generalize dependent (r mod 64).
  intros m Hm q Hq Er.
  pose proof (len_nonneg rest) as Hn. unfold len in Hn.
  decide_decode. f_equal. subst r. Z.div_mod_to_equations. lia.
Qed.

Lemma decode_encode3 (r : Z) (rest : string) :
  2048 <= r < 55296 \/ 57343 < r < 65536 ->
  DecodeRuneInString
    (String (to_byte (224 + r / 4096))
       (String (to_byte (128 + (r / 64) mod 64))
          (String (to_byte (128 + r mod 64)) rest)))
  = (r, 3).
Proof.
  intros Hr.
  assert (Hq1 : 0 <= r / 4096 < 16) by (Z.div_mod_to_equations; lia).
  assert (Hq2 : 0 <= (r / 64) mod 64 < 64)
    by (apply Z.mod_pos_bound; lia).
  assert (Hm : 0 <= r mod 64 < 64) by (apply Z.mod_pos_bound; lia).
  assert (Er : r = r / 4096 * 4096 + (r / 64) mod 64 * 64 + r mod 64)
    by (Z.div_mod_to_equations; lia).
  generalize dependent (r / 4096).
  generalize dependent ((r / 64) mod 64).
  generalize dependent (r mod 64).
  intros m Hm q2 Hq2 q1 Hq1 Er.
  pose proof (len_nonneg rest) as Hn. unfold len in Hn.
  decide_decode; f_equal; subst r; Z.div_mod_to_equations; lia.
Qed.

Lemma decode_encode4 (r : Z) (rest : string) :
  65536 <= r <= 1114111 ->
  DecodeRuneInString
    (String (to_byte (240 + r / 262144))
       (String (to_byte (128 + (r / 4096) mod 64))
          (String (to_byte (128 + (r / 64) mod 64))
             (String (to_byte (128 + r mod 64)) rest))))
  = (r, 4).
Proof.
  intros Hr.
  assert (Hq1 : 0 <= r / 262144 < 5) by (Z.div_mod_to_equations; lia).
  assert (Hq2 : 0 <= (r / 4096) mod 64 < 64)
    by (apply Z.mod_pos_bound; lia).
  assert (Hq3 : 0 <= (r / 64) mod 64 < 64)
    by (apply Z.mod_pos_bound; lia).
  assert (Hm : 0 <= r mod 64 < 64) by (apply Z.mod_pos_bound; lia).
  assert (Er : r = r / 262144 * 262144 + (r / 4096) mod 64 * 4096
                   + (r / 64) mod 64 * 64 + r mod 64)
    by (Z.div_mod_to_equations; lia).
  generalize dependent (r / 262144).
  generalize dependent ((r / 4096) mod 64).
  generalize dependent ((r / 64) mod 64).
  generalize dependent (r mod 64).
  intros m Hm q3 Hq3 q2 Hq2 q1 Hq1 Er.
  pose proof (len_nonneg rest) as Hn. unfold len in Hn.
  decide_decode; f_equal; subst r; Z.div_mod_to_equations; lia.
Qed.

(** Decoding the encoding of a scalar value gives the value back, and
    the number of bytes of the encoding. *)
Lemma decode_encode (r : Z) (rest : string) :
  valid_rune r = true ->
  DecodeRuneInString (EncodeRune r ++ rest) = (r, len (EncodeRune r)).
Proof.
  intros Hv. rewrite (encode_bytes r Hv).
  unfold valid_rune, surrogateMin, surrogateMax, MaxRune in Hv.
  assert (Hr : 0 <= r < 55296 \/ 57343 < r <= 1114111).
  { apply orb_true_iff in Hv. rewrite !andb_true_iff in Hv.
    rewrite ?Z.leb_le, ?Z.ltb_lt in Hv. lia. }
  clear Hv.
  destruct (Z.ltb_spec r 128); [apply decode_encode1; lia|].
  destruct (Z.ltb_spec r 2048); [apply decode_encode2; lia|].
  destruct (Z.ltb_spec r 65536); [apply decode_encode3; lia|].
  apply decode_encode4; lia.
Qed.

End RoundTrip.

(* ------------------------------------------------------------------ *)
(** ** [Reverse] on code points *)

Section ReverseRunes.
Import utf8.

Lemma runes_loop_valid (fuel : nat) :
  forall s, Forall (fun r => valid_rune r = true) (runes_loop fuel s).
Proof.
  induction fuel as [|fuel IH]; intros s; simpl; [constructor|].
  destruct s as [|c s]; [constructor|].
  pose proof (decode_valid (String c s)) as V.
  destruct (DecodeRuneInString (String c s)) as [r w].
  constructor; [exact V|apply IH].
Qed.

Lemma runes_valid (s : string) :
  Forall (fun r => valid_rune r = true) (runes s).
Proof. apply runes_loop_valid. Qed.

Lemma encode_nonempty (r : Z) :
  valid_rune r = true -> exists c t, EncodeRune r = String c t.
Proof.
  intros Hv. rewrite (encode_bytes r Hv).
  repeat match goal with
         | |- context [if ?c then _ else _] => destruct c
         end; eauto.
Qed.

Lemma drop_app_length (a b : string) :
  drop (String.length a) (a ++ b) = b.
Proof. induction a as [|c a IH]; simpl; [destruct b|]; auto. Qed.

Lemma length_app_s (a b : string) :
  String.length (a ++ b) = (String.length a + String.length b)%nat.
Proof. induction a as [|c a IH]; simpl; [|rewrite IH]; reflexivity. Qed.

(** The code points of a string written from scalar values are those
    values. *)
Lemma runes_loop_encoded (rs : list Z) :
  Forall (fun r => valid_rune r = true) rs ->
  forall fuel,
    (String.length (string_of_runes rs) <= fuel)%nat ->
    runes_loop fuel (string_of_runes rs) = rs.
Proof.
  induction 1 as [|r rs Hr _ IH]; intros fuel Hf.
  - destruct fuel; reflexivity.
  - change (string_of_runes (r :: rs))
      with (EncodeRune r ++ string_of_runes rs)%string in *.
    destruct (encode_nonempty r Hr) as (c & t & Ec).
    rewrite length_app_s in Hf.
    destruct fuel as [|fuel]; [rewrite Ec in Hf; simpl in Hf; lia|].
    assert (Hs : exists c' t',
               (EncodeRune r ++ string_of_runes rs)%string = String c' t').
    { rewrite Ec. simpl. eauto. }
    destruct Hs as (c' & t' & Es).
    cbn [runes_loop]. rewrite Es at 1. cbv iota.
    rewrite (decode_encode r _ Hr).
    unfold len. rewrite Nat2Z.id, drop_app_length.
    rewrite IH; [reflexivity|].
    rewrite Ec in Hf. simpl in Hf. lia.
Qed.

Lemma runes_encoded (rs : list Z) :
  Forall (fun r => valid_rune r = true) rs ->
  runes (string_of_runes rs) = rs.
Proof. intros H. apply runes_loop_encoded; [assumption|lia]. Qed.

(** X14. [Reverse] reverses the code points of any string, a byte that is not
    part of a well-formed encoding counting as one U+FFFD. *)
Theorem Reverse_runes (s : string) :
  runes (Reverse s) = rev (runes s).
Proof.
  rewrite Reverse_eq.
  apply runes_encoded. apply Forall_rev. apply runes_valid.
Qed.

(** [Reverse] twice writes the code points of the string afresh. *)
Lemma Reverse_twice (s : string) :
  Reverse (Reverse s) = string_of_runes (runes s).
Proof.
  rewrite (Reverse_eq (Reverse s)), (Reverse_eq s).
  rewrite runes_encoded by (apply Forall_rev; apply runes_valid).
  rewrite rev_involutive. reflexivity.
Qed.

End ReverseRunes.

(* ------------------------------------------------------------------ *)
(** ** [Reverse] twice, on well-formed strings *)

Section WellFormed.
Import utf8.

Ltac split_in H :=
  repeat (match type of H with
          | context [?a =? ?b] =>
              destruct (Z.eqb_spec a b); try (exfalso; lia)
          | context [?a <? ?b] =>
              destruct (Z.ltb_spec a b); try (exfalso; lia)
          | context [?a <=? ?b] =>
              destruct (Z.leb_spec a b); try (exfalso; lia)
          end; cbv beta iota in H; cbn [andb orb] in H).

Ltac decode_cases s r w E :=
  destruct (DecodeRuneInString s) as [r w] eqn:E;
  rewrite decode_arith in E; unfold decode_spec, RuneError in E;
  unfold len, byte_at in E; cbn [String.length String.get] in E;
  split_in E; injection E as <- <-.

Ltac same_byte c :=
  transitivity (to_byte (byte c));
  [f_equal; Z.div_mod_to_equations; lia | apply to_byte_byte].

Ltac split_goal :=
  repeat (match goal with
          | |- context [?a <? ?b] =>
              destruct (Z.ltb_spec a b);
              try (exfalso; Z.div_mod_to_equations; lia)
          end; cbv beta iota).

Ltac norm_width :=
  try change (Z.to_nat 1) with 1%nat;
  try change (Z.to_nat 2) with 2%nat;
  try change (Z.to_nat 3) with 3%nat;
  try change (Z.to_nat 4) with 4%nat.

Ltac finish_encode :=
  match goal with
  | V : valid_rune ?r = true |- EncodeRune ?r = _ =>
      rewrite (encode_bytes r V); clear V; split_goal;
      cbn [take];
      repeat (f_equal; try match goal with
                           | |- to_byte _ = ?c => same_byte c
                           end)
  end.

Lemma encode_decode (s : string) :
  1 <= len s ->
  (fst (DecodeRuneInString s) =? RuneError)
  && (snd (DecodeRuneInString s) =? 1) = false ->
  EncodeRune (fst (DecodeRuneInString s))
  = take (Z.to_nat (snd (DecodeRuneInString s))) s.
Proof.
  intros Hn Hne. pose proof (decode_valid s) as V.
  destruct s as [|c0 s]; [unfold len in Hn; simpl in Hn; lia|].
  clear Hn. pose proof (byte_range c0).
  destruct s as [|c1 s].
  { decode_cases (String c0 "") r w E; cbn [fst snd] in *;
      try discriminate Hne; norm_width; finish_encode. }
  pose proof (byte_range c1).
  destruct s as [|c2 s].
  { decode_cases (String c0 (String c1 "")) r w E; cbn [fst snd] in *;
      try discriminate Hne; norm_width; finish_encode. }
  pose proof (byte_range c2).
  destruct s as [|c3 s].
  { decode_cases (String c0 (String c1 (String c2 ""))) r w E;
      cbn [fst snd] in *;
      try discriminate Hne; norm_width; finish_encode. }
  pose proof (byte_range c3).
  decode_cases (String c0 (String c1 (String c2 (String c3 s)))) r w E;
    cbn [fst snd] in *;
    try discriminate Hne; norm_width; finish_encode.
Qed.

Lemma string_of_runes_wf (fuel : nat) :
  forall s,
    well_formed_loop fuel s = true ->
    (String.length s <= fuel)%nat ->
    string_of_runes (runes_loop fuel s) = s.
Proof.
  induction fuel as [|fuel IH]; intros s Hw Hf.
  - destruct s; [reflexivity|simpl in Hf; lia].
  - destruct s as [|c s]; [reflexivity|].
    set (t := String c s) in *.
    assert (Hn : 1 <= len t) by (unfold len, t; simpl; lia).
    pose proof (decode_width t Hn) as W.
    pose proof (encode_decode t Hn) as Ed.
    change (runes_loop (S fuel) t)
      with (let (r, w) := DecodeRuneInString t in
            r :: runes_loop fuel (drop (Z.to_nat w) t)).
    change (well_formed_loop (S fuel) t)
      with (let (r, w) := DecodeRuneInString t in
            negb ((r =? RuneError) && (w =? 1))
            && well_formed_loop fuel (drop (Z.to_nat w) t)) in Hw.
    destruct (DecodeRuneInString t) as [r w]. cbn [fst snd] in *.
    apply andb_true_iff in Hw. destruct Hw as [Hne Hw].
    apply negb_true_iff in Hne.
    change (string_of_runes (r :: runes_loop fuel (drop (Z.to_nat w) t)))
      with (EncodeRune r
            ++ string_of_runes (runes_loop fuel (drop (Z.to_nat w) t)))%string.
    rewrite (Ed Hne), IH.
    + apply take_drop_id.
    + exact Hw.
    + rewrite length_drop. unfold len in W. lia.
Qed.

(** X15. On a well-formed UTF-8 string [Reverse] is its own inverse. *)
Theorem Reverse_involutive (s : string) :
  well_formed s = true -> Reverse (Reverse s) = s.
Proof.
  intros Hw. rewrite Reverse_twice.
  apply string_of_runes_wf; [exact Hw|lia].
Qed.

End WellFormed.

(* ------------------------------------------------------------------ *)
(** ** The kinds a scan produces *)

Section Kinds.

(** X3. Of the twelve kinds a scan produces three: every item is a [Text]
    item, a [WhiteSpace] item or the [EOF] item; the reserved kinds and
    [ItemError] never appear. *)
Theorem only_three_kinds (text : string) :
  exists l,
    Lex text = Ok l
    /\ Forall (fun i => Item.Kind i = Text \/ Item.Kind i = WhiteSpace
                        \/ Item.Kind i = EOF) (Items l).
Proof.
  destruct (Lex_spec text)
    as (s & _ & E & [_ _ _ (pre & Hit & Hseg & _ & _) _]).
  exists (lx s). split; [assumption|].
  rewrite Hit. apply Forall_app. split.
  - eapply Forall_impl; [|exact Hseg].
    intros i Hi. unfold segment in Hi.
    destruct (Item.Kind i); simpl in Hi; try discriminate; auto.
  - constructor; [simpl; auto|constructor].
Qed.

End Kinds.

(* ------------------------------------------------------------------ *)
(** ** The theorems with hypotheses, at concrete inputs *)

Section Witnesses.
Import parser.

Lemma Parse_output_or_error_witness :
  let pre := [Item.mk 0 Text "ab"; Item.mk 2 WhiteSpace " "] in
  let t := Item.mk 0 ItemError "bad" in
  let rest := [Item.mk 3 EOF ""] in
  let l := mkLexer "ab " 3 3 0 fn_lexText (pre ++ t :: rest) true in
  Items l = (pre ++ t :: rest)%list
  /\ Forall (fun i => terminal i = false) pre
  /\ Item.Kind t = ItemError
  /\ Parse_from l
     = Ok ("", Some (Errorf "error processing the following %q" "bad")).
Proof.
  intros pre t rest l.
  assert (Hpre : Forall (fun i => terminal i = false) pre)
    by (repeat constructor).
  split; [reflexivity|]. split; [exact Hpre|]. split; [reflexivity|].
  exact (proj2 (proj1 Parse_output_or_error l pre rest t eq_refl Hpre)
           eq_refl).
Defined.

Lemma ascii_segments_alternate_witness :
  is_ascii "go rocks" = true
  /\ exists l,
       Lex "go rocks" = Ok l /\ strictly_alternates (Items l) = true.
Proof.
  split; [reflexivity|].
  apply (ascii_segments_alternate "go rocks"). reflexivity.
Defined.

Lemma nonempty_input_values_witness :
  "a " <> ""
  /\ exists l,
       Lex "a " = Ok l
       /\ forall i, In i (Items l) ->
            Item.Kind i <> EOF -> Item.Value i <> "".
Proof.
  split; [discriminate|].
  apply (nonempty_input_values "a "). discriminate.
Defined.

Lemma ascii_segments_classified_witness :
  is_ascii "go rocks" = true
  /\ has_nul "go rocks" = false
  /\ exists l,
       Lex "go rocks" = Ok l /\ forallb classified (Items l) = true.
Proof.
  split; [reflexivity|]. split; [reflexivity|].
  apply (ascii_segments_classified "go rocks"); reflexivity.
Defined.

Lemma Parse_reverses_words_witness :
  is_ascii "go rocks" = true
  /\ has_nul "go rocks" = false
  /\ Parse "go rocks" = Ok (reverse_words "go rocks", None).
Proof.
  split; [reflexivity|]. split; [reflexivity|].
  apply (Parse_reverses_words "go rocks"); reflexivity.
Defined.

Lemma Parse_twice_witness :
  is_ascii "  hi  " = true
  /\ has_nul "  hi  " = false
  /\ exists out,
       Parse "  hi  " = Ok (out, None) /\ Parse out = Ok ("  hi  ", None).
Proof.
  split; [reflexivity|]. split; [reflexivity|].
  apply (Parse_twice "  hi  "); reflexivity.
Defined.

Lemma parse_publishes_at_EOF_witness :
  let pre := [Item.mk 0 Text "ab"; Item.mk 2 Digit "7"] in
  let t := Item.mk 3 EOF "" in
  let rest := [Item.mk 3 Text "zz"] in
  let l := mkLexer "ab7" 3 3 0 fn_lexText (pre ++ t :: rest) true in
  let p := mkParser "" l None in
  Items (lex p) = (pre ++ t :: rest)%list
  /\ Forall (fun i => terminal i = false) pre
  /\ Item.Kind t = EOF
  /\ parse p = Ok (mkParser (reassemble pre) (lex p) (errItem p)).
Proof.
  intros pre t rest l p.
  assert (Hpre : Forall (fun i => terminal i = false) pre)
    by (repeat constructor).
  split; [reflexivity|]. split; [exact Hpre|]. split; [reflexivity|].
  exact (parse_publishes_at_EOF p pre t rest eq_refl Hpre eq_refl).
Defined.

Lemma parse_stops_at_ItemError_witness :
  let pre := [Item.mk 0 Text "ab"] in
  let t := Item.mk 0 ItemError "bad" in
  let rest := [Item.mk 2 EOF ""] in
  let l := mkLexer "ab" 2 2 0 fn_lexText (pre ++ t :: rest) true in
  let p := mkParser "" l None in
  Items (lex p) = (pre ++ t :: rest)%list
  /\ Forall (fun i => terminal i = false) pre
  /\ Item.Kind t = ItemError
  /\ parse p = Ok (mkParser (result p) (lex p) (Some t)).
Proof.
  intros pre t rest l p.
  assert (Hpre : Forall (fun i => terminal i = false) pre)
    by (repeat constructor).
  split; [reflexivity|]. split; [exact Hpre|]. split; [reflexivity|].
  exact (parse_stops_at_ItemError p pre t rest eq_refl Hpre eq_refl).
Defined.

Lemma parse_without_terminal_witness :
  let l := mkLexer "ab " 3 3 0 fn_lexText
             [Item.mk 0 Text "ab"; Item.mk 2 WhiteSpace " "] true in
  let p := mkParser "" l None in
  Forall (fun i => terminal i = false) (Items (lex p))
  /\ closed (lex p) = true
  /\ parse p = Ok p.
Proof.
  intros l p.
  assert (H : Forall (fun i => terminal i = false) (Items (lex p)))
    by (repeat constructor).
  split; [exact H|]. split; [reflexivity|].
  exact (parse_without_terminal p H eq_refl).
Defined.

Lemma errorf_reported_witness :
  let l := mkLexer "ab" 0 2 1 fn_lexText [] false in
  closed l = false
  /\ Forall (fun i => terminal i = false) (Items l)
  /\ exists s',
       errorf "bad" (mkRun l [l]) = Ok (None, s')
       /\ Items (lx s') = (Items l ++ [Item.mk 0 ItemError "bad"])%list
       /\ parse (mkParser "" (lx s') None)
          = Ok (mkParser "" (lx s') (Some (Item.mk 0 ItemError "bad"))).
Proof.
  intros l.
  split; [reflexivity|]. split; [constructor|].
  exact (errorf_reported "bad" l [l] eq_refl (Forall_nil _)).
Defined.

Lemma next_then_backup_witness :
  let l := new_Lexer nbsp in
  let s := mkRun l [l] in
  cursor_ok (lx s)
  /\ Position (lx s) < len (input (lx s))
  /\ exists s',
       bind next (fun r => bind backup (fun _ => ret r)) s
       = Ok (fst (peek (lx s)), s')
       /\ width (lx s') = snd (peek (lx s))
       /\ Position (lx s') = Position (lx s) + width (lx s') - 1
       /\ Position (lx s) <= Position (lx s') < len (input (lx s))
       /\ (Position (lx s') = Position (lx s) <-> width (lx s') = 1).
Proof.
  intros l s.
  assert (Hc : cursor_ok (lx s)).
  { unfold cursor_ok, cursor_inv. vm_compute. intuition discriminate. }
  assert (Hl : Position (lx s) < len (input (lx s))) by reflexivity.
  split; [exact Hc|]. split; [exact Hl|].
  exact (next_then_backup s Hc Hl).
Defined.

Lemma Reverse_ascii_witness :
  is_ascii "rocks" = true /\ Reverse "rocks" = srev "rocks".
Proof.
  split; [reflexivity|]. apply (Reverse_ascii "rocks"). reflexivity.
Defined.

Lemma Reverse_involutive_witness :
  well_formed hello_acute = true
  /\ Reverse (Reverse hello_acute) = hello_acute.
Proof.
  assert (H : well_formed hello_acute = true) by (vm_compute; reflexivity).
  split; [exact H|]. exact (Reverse_involutive hello_acute H).
Defined.

End Witnesses.
